(** * mcp-vector-indexer: chunking, embedding cache and query pipeline

    A shallow embedding of [embedder.py] (class [Embedder]) and [search.py]
    (class [VectorSearch]) and the properties of the design document that
    concern them.

    Conventions.
    - Python [int] is [Z]; [len] returns a [Z].
    - Python [str] is [string]; slicing follows Python's rules for negative
      and out-of-range bounds ([py_slice]).
    - A similarity or distance is a Python float that is only ever compared;
      a float that is not NaN is represented by its rank in the order of the
      doubles, an integer ([Z]).
    - A loop that may run forever carries a bound on the number of iterations
      it is observed for; the result says whether the function has returned
      within that bound. *)

From Stdlib Require Import ZArith Lia String Ascii.
From stdpp Require Import base tactics option list sets strings sorting pretty.

Open Scope Z_scope.

(** ** Python sequence helpers *)

Definition len (s : string) : Z := Z.of_nat (String.length s).

(** Normalisation of a slice bound against a sequence of length [n]:
    a negative bound counts from the end, and the result is clamped to
    [0..n]. *)
Definition py_index (n i : Z) : Z :=
  if i <? 0 then Z.max (i + n) 0 else Z.min i n.

(** [s[i:j]]. *)
Definition py_slice (s : string) (i j : Z) : string :=
  let lo := py_index (len s) i in
  let hi := py_index (len s) j in
  substring (Z.to_nat lo) (Z.to_nat (hi - lo)) s.

(** [l[:n]] on a list. *)
Definition py_prefix {A} (l : list A) (n : Z) : list A :=
  take (Z.to_nat (py_index (Z.of_nat (length l)) n)) l.

(** ** config.py *)

Record Config := {
  chunk_size : Z;
  chunk_overlap : Z
}.

(** ** Effects

    A call either returns a value, raises an exception, or has not returned
    within the observation bound. Calls thread the state of the object they
    are methods of. *)

Definition exn := string.

Inductive result (A : Type) :=
| Ok (a : A)
| Raise (e : exn)
| Pending.
Arguments Ok {A} a.
Arguments Raise {A} e.
Arguments Pending {A}.

Definition M (S A : Type) : Type := S → result A * S.

Definition ret {S A} (a : A) : M S A := λ s, (Ok a, s).

Definition bind {S A B} (m : M S A) (k : A → M S B) : M S B :=
  λ s, match m s with
       | (Ok a, s') => k a s'
       | (Raise e, s') => (Raise e, s')
       | (Pending, s') => (Pending, s')
       end.

Notation "x <- m ;; k" := (bind m (λ x, k))
  (at level 100, m at next level, right associativity).
Notation "m ;;; k" := (bind m (λ _, k))
  (at level 100, right associativity).

(** [try: body except Exception as e: handler e]. *)
Definition try_except {S A} (body : M S A) (handler : exn → M S A) : M S A :=
  λ s, match body s with
       | (Raise e, s') => handler e s'
       | r => r
       end.

(** A call on a component of the state. *)
Definition zoom {S T A} (get : S → T) (set : T → S → S) (m : M T A) : M S A :=
  λ s, let '(r, t) := m (get s) in (r, set t s).

(** ** Libraries the code calls

    numpy arrays and their pickled form, the MD5 digest, the sentence
    transformer, [datetime.isoformat], [os.path.splitext] and float
    subtraction are used through these operations. *)

Class Library := {
  ndarray : Type;
  blob : Type;
  pickle_dumps : ndarray → blob;
  pickle_loads : blob → ndarray;
  pickle_loads_dumps : ∀ a, pickle_loads (pickle_dumps a) = a;
  (** [hashlib.md5(content.encode('utf-8')).hexdigest()] *)
  md5_hexdigest : string → string;
  (** [model.encode(text)]; the outcome may depend on the calls made before,
      the provider being deterministic only by assumption. *)
  model_encode : list string → string → result ndarray;
  (** [ndarray.tolist()] *)
  floats : Type;
  tolist : ndarray → floats;
  datetime : Type;
  isoformat : datetime → string;
  (** [os.path.splitext(path)[1].lower()] *)
  splitext_lower : string → string;
  (** [1.0 - distance] *)
  one_minus : Z → Z
}.

(** ** embedder.py *)

Section Embedder.
Context `{Library}.

(** A row of the table [embeddings]; [content_hash] is its primary key. *)
Record cache_row := {
  content_hash : string;
  embedding : blob;
  created_at : nat
}.

(** The state an [Embedder] works on: its configuration, the table of the
    SQLite file at [cache_db_path], the lazily loaded model, the texts the
    model was asked to encode, and the clock [datetime.now()] reads. *)
Record Embedder := {
  config : Config;
  cache_db : list cache_row;
  model : bool;
  encoded : list string;
  clock : nat
}.

(** [__init__] with [_init_cache_db]: [CREATE TABLE IF NOT EXISTS] keeps the
    table of an existing file and creates an empty one otherwise. *)
Definition Embedder_init (cfg : Config) (file : option (list cache_row)) : Embedder :=
  {| config := cfg; cache_db := default [] file; model := false;
     encoded := []; clock := 0 |}.

Definition _load_model : M Embedder unit :=
  λ s, (Ok tt, {| config := config s; cache_db := cache_db s; model := true;
                  encoded := encoded s; clock := clock s |}).

Definition get_content_hash (content : string) : string := md5_hexdigest content.

(** [SELECT embedding FROM embeddings WHERE content_hash = ?], [fetchone]. *)
Definition _get_cached_embedding (h : string) : M Embedder (option ndarray) :=
  λ s, let result := head (filter (λ r, content_hash r = h) (cache_db s)) in
       (Ok (match result with
            | Some r => Some (pickle_loads (embedding r))
            | None => None
            end), s).

(** [INSERT OR REPLACE]: the rows in conflict on the primary key are
    deleted, then the new row is inserted. *)
Definition insert_or_replace (row : cache_row) (table : list cache_row) : list cache_row :=
  filter (λ r, content_hash r ≠ content_hash row) table ++ [row].

Definition _cache_embedding (h : string) (e : ndarray) : M Embedder unit :=
  λ s, (Ok tt, {| config := config s;
                  cache_db := insert_or_replace
                    {| content_hash := h; embedding := pickle_dumps e;
                       created_at := clock s |} (cache_db s);
                  model := model s; encoded := encoded s;
                  clock := S (clock s) |}).

Definition model_encode_call (text : string) : M Embedder ndarray :=
  λ s, (model_encode (encoded s) text,
        {| config := config s; cache_db := cache_db s; model := model s;
           encoded := encoded s ++ [text]; clock := clock s |}).

Definition generate_embedding (text : string) : M Embedder ndarray :=
  _load_model ;;; model_encode_call text.

Definition get_embedding (text : string) : M Embedder ndarray :=
  let h := get_content_hash text in
  cached_embedding <- _get_cached_embedding h ;;
  match cached_embedding with
  | Some e => ret e
  | None =>
    e <- generate_embedding text ;;
    _cache_embedding h e ;;;
    ret e
  end.

(** *** [chunk_text] *)

(** One pass through the body of the [while] loop appends one chunk; the
    model keeps, with the chunk, the offsets it was cut at. *)
Record window := {
  w_start : Z;
  w_end : Z;
  w_chunk : string
}.

(** What is known of the loop after a bounded number of iterations: it was
    left with these chunks, or it is still running with the chunks appended
    so far. *)
Inductive run :=
| Returned (chunks : list window)
| Running (chunks : list window).

Definition emitted (r : run) : list window :=
  match r with Returned ws => ws | Running ws => ws end.

Definition returned (r : run) : option (list string) :=
  match r with Returned ws => Some (w_chunk <$> ws) | Running _ => None end.

(** The [while start < len(text)] loop, entered with [start] and [chunks]. *)
Fixpoint chunk_loop (fuel : nat) (cfg : Config) (text : string)
    (start : Z) (chunks : list window) : run :=
  match fuel with
  | O => Running chunks
  | S fuel' =>
    if start <? len text then
      let end_ := Z.min (start + chunk_size cfg) (len text) in
      let chunk := py_slice text start end_ in
      let chunks := chunks ++ [{| w_start := start; w_end := end_; w_chunk := chunk |}] in
      let start := end_ - chunk_overlap cfg in
      if start >=? len text then Returned chunks
      else chunk_loop fuel' cfg text start chunks
    else Returned chunks
  end.

(** [chunk_text], observed for [fuel] iterations of its loop. *)
Definition chunk_text_run (fuel : nat) (cfg : Config) (text : string) : run :=
  if String.eqb text "" then Returned []
  else chunk_loop fuel cfg text 0 [].

(** The list [chunk_text] returns, if it returns within [fuel] iterations. *)
Definition chunk_text_pure (fuel : nat) (cfg : Config) (text : string)
    : option (list string) :=
  returned (chunk_text_run fuel cfg text).

Definition chunk_text (fuel : nat) (text : string) : M Embedder (list string) :=
  λ s, (match chunk_text_pure fuel (config s) text with
        | Some chunks => Ok chunks
        | None => Pending
        end, s).

(** [for chunk in chunks: embeddings.append(self.get_embedding(chunk))]. *)
Fixpoint embed_chunks (chunks : list string) (embeddings : list ndarray)
    : M Embedder (list ndarray) :=
  match chunks with
  | [] => ret embeddings
  | chunk :: chunks' =>
    e <- get_embedding chunk ;;
    embed_chunks chunks' (embeddings ++ [e])
  end.

Definition get_embeddings_for_chunks (fuel : nat) (text : string)
    : M Embedder (list ndarray) :=
  chunks <- chunk_text fuel text ;;
  embed_chunks chunks [].

End Embedder.

(** ** search.py *)

Section VectorSearch.
Context `{Library}.

(** A document dictionary as the file scanner builds it; the keys
    ['file_type'], ['file_size'] and ['last_modified'] may be absent. *)
Record document := {
  doc_file_path : string;
  doc_content : string;
  doc_file_type : option string;
  doc_file_size : option Z;
  doc_last_modified : option datetime
}.

Record metadata := {
  file_path : string;
  file_type : string;
  chunk_index : Z;
  file_size : Z;
  last_modified : string
}.

(** The four lists [all_ids], [all_embeddings], [all_metadatas] and
    [all_documents], which are the arguments of [collection.add]. *)
Record batch := {
  all_ids : list string;
  all_embeddings : list floats;
  all_metadatas : list metadata;
  all_documents : list string
}.

Definition empty_batch : batch :=
  {| all_ids := []; all_embeddings := []; all_metadatas := []; all_documents := [] |}.

(** The [i]-th entry of the answer of [collection.query]. *)
Record hit := {
  hit_id : string;
  hit_file_path : string;
  hit_file_type : option string;
  hit_chunk_index : Z;
  hit_document : string;
  hit_distance : Z
}.

(** A result dictionary of [search]. *)
Record query_result := {
  r_file_path : string;
  r_content : string;
  r_similarity : Z;
  r_file_type : string;
  r_chunk_index : Z;
  r_query : string
}.

(** The Chroma collection, an external service: each operation answers,
    raises, or does not return. *)
Class Chroma := {
  collection : Type;
  collection_add : collection → batch → result collection;
  (** [collection.get(where={"file_path": path})['ids']] *)
  collection_get : collection → string → result (list string);
  collection_delete : collection → list string → result collection;
  (** [collection.query(query_embeddings=[e], n_results=n)] *)
  collection_query : collection → floats → Z → result (list hit)
}.
Context `{Chroma}.

(** A call made to the collection. *)
Inductive call :=
| CallAdd (b : batch)
| CallGet (path : string)
| CallDelete (ids : list string)
| CallQuery (e : floats) (n_results : Z).

(** The state a [VectorSearch] works on: its embedder, the collection, the
    calls made to the collection so far and the warnings printed. The
    progress messages of [add_documents] are not recorded. *)
Record VectorSearch := {
  embedder : Embedder;
  store : collection;
  calls : list call;
  warnings : list string
}.

Definition on_embedder {A} (m : M Embedder A) : M VectorSearch A :=
  zoom embedder
       (λ e s, {| embedder := e; store := store s; calls := calls s;
                  warnings := warnings s |}) m.

Definition record_call (c : call) (s : VectorSearch) : VectorSearch :=
  {| embedder := embedder s; store := store s; calls := calls s ++ [c];
     warnings := warnings s |}.

Definition with_store (c : collection) (s : VectorSearch) : VectorSearch :=
  {| embedder := embedder s; store := c; calls := calls s;
     warnings := warnings s |}.

Definition warned (line : string) (s : VectorSearch) : VectorSearch :=
  {| embedder := embedder s; store := store s; calls := calls s;
     warnings := warnings s ++ [line] |}.

Definition print_warning (line : string) : M VectorSearch unit :=
  λ s, (Ok tt, warned line s).

Definition add (b : batch) : M VectorSearch unit :=
  λ s, let s := record_call (CallAdd b) s in
       match collection_add (store s) b with
       | Ok c => (Ok tt, with_store c s)
       | Raise e => (Raise e, s)
       | Pending => (Pending, s)
       end.

Definition get (path : string) : M VectorSearch (list string) :=
  λ s, let s := record_call (CallGet path) s in
       (collection_get (store s) path, s).

Definition delete (ids : list string) : M VectorSearch unit :=
  λ s, let s := record_call (CallDelete ids) s in
       match collection_delete (store s) ids with
       | Ok c => (Ok tt, with_store c s)
       | Raise e => (Raise e, s)
       | Pending => (Pending, s)
       end.

Definition query (e : floats) (n_results : Z) : M VectorSearch (list hit) :=
  λ s, let s := record_call (CallQuery e n_results) s in
       (collection_query (store s) e n_results, s).

(** *** [add_documents] *)

(** The body of the loop over [enumerate(zip(chunks, embeddings))]: one
    record is appended to each of the four lists. *)
Definition metadata_of (doc : document) (i : Z) : metadata :=
  {| file_path := doc_file_path doc;
     file_type := default "" (doc_file_type doc);
     chunk_index := i;
     file_size := default 0 (doc_file_size doc);
     last_modified := match doc_last_modified doc with
                      | Some t => isoformat t
                      | None => ""
                      end |}.

Definition append_record (doc : document) (i : Z) (chunk : string)
    (e : ndarray) (b : batch) : batch :=
  let doc_id := doc_file_path doc +:+ "_" +:+ pretty i in
  {| all_ids := all_ids b ++ [doc_id];
     all_embeddings := all_embeddings b ++ [tolist e];
     all_metadatas := all_metadatas b ++ [metadata_of doc i];
     all_documents := all_documents b ++ [chunk] |}.

Fixpoint append_records (doc : document) (i : Z)
    (pairs : list (string * ndarray)) (b : batch) : batch :=
  match pairs with
  | [] => b
  | (chunk, e) :: pairs' =>
    append_records doc (i + 1) pairs' (append_record doc i chunk e b)
  end.

(** The loop over the documents, entered with the buffer [b]; it returns
    the buffer it ends with. *)
Fixpoint add_documents_loop (fuel : nat) (documents : list document)
    (b : batch) : M VectorSearch batch :=
  match documents with
  | [] => ret b
  | doc :: documents' =>
    embeddings <- on_embedder (get_embeddings_for_chunks fuel (doc_content doc)) ;;
    chunks <- on_embedder (chunk_text fuel (doc_content doc)) ;;
    let b := append_records doc 0 (zip chunks embeddings) b in
    if 100 <=? Z.of_nat (length (all_ids b)) then
      add b ;;;
      add_documents_loop fuel documents' empty_batch
    else add_documents_loop fuel documents' b
  end.

Definition add_documents (fuel : nat) (documents : list document)
    : M VectorSearch unit :=
  b <- add_documents_loop fuel documents empty_batch ;;
  match all_ids b with
  | [] => ret tt
  | _ :: _ => add b
  end.

(** *** [search] *)

(** [query: Union[str, List[str]]]. *)
Inductive query_arg :=
| QueryStr (q : string)
| QueryList (qs : list string).

Definition queries_of (q : query_arg) : list string :=
  match q with QueryStr q => [q] | QueryList qs => qs end.

Definition result_of_hit (q : string) (h : hit) : query_result :=
  {| r_file_path := hit_file_path h;
     r_content := hit_document h;
     r_similarity := one_minus (hit_distance h);
     r_file_type := default "" (hit_file_type h);
     r_chunk_index := hit_chunk_index h;
     r_query := q |}.

(** [sorted(results, key=lambda x: x['similarity'], reverse=True)]: the
    stable sort, by decreasing similarity, results of equal similarity
    keeping their order. *)
Fixpoint insert_by_similarity (x : query_result) (l : list query_result)
    : list query_result :=
  match l with
  | [] => [x]
  | y :: l' =>
    if r_similarity x <? r_similarity y then y :: insert_by_similarity x l'
    else x :: y :: l'
  end.

Definition sort_results_by_similarity (results : list query_result)
    : list query_result :=
  foldr insert_by_similarity [] results.

(** The dictionary [seen_files]: its keys are kept in the order they were
    first inserted in, and an assignment to a present key replaces the value
    in place. *)
Fixpoint dict_get {V} (k : string) (d : list (string * V)) : option V :=
  match d with
  | [] => None
  | (k', v) :: d' => if decide (k' = k) then Some v else dict_get k d'
  end.

Fixpoint dict_set {V} (k : string) (v : V) (d : list (string * V))
    : list (string * V) :=
  match d with
  | [] => [(k, v)]
  | (k', v') :: d' =>
    if decide (k' = k) then (k, v) :: d' else (k', v') :: dict_set k v d'
  end.

Definition dict_values {V} (d : list (string * V)) : list V := d.*2.

Definition seen_step (seen_files : list (string * query_result))
    (result : query_result) : list (string * query_result) :=
  let file_path := r_file_path result in
  match dict_get file_path seen_files with
  | None => dict_set file_path result seen_files
  | Some seen =>
    if r_similarity seen <? r_similarity result
    then dict_set file_path result seen_files
    else seen_files
  end.

Definition deduplicate_results (results : list query_result)
    : list query_result :=
  dict_values (foldl seen_step [] results).

Definition filter_results_by_threshold (results : list query_result)
    (threshold : Z) : list query_result :=
  filter (λ r, threshold ≤ r_similarity r) results.

(** The loop over the queries, entered with the pool [all_results]. *)
Fixpoint search_loop (queries : list string) (n_results : Z)
    (all_results : list query_result) : M VectorSearch (list query_result) :=
  match queries with
  | [] => ret all_results
  | q :: queries' =>
    query_embedding <- on_embedder (get_embedding q) ;;
    results <- query (tolist query_embedding) n_results ;;
    search_loop queries' n_results (all_results ++ (result_of_hit q <$> results))
  end.

(** What [search] does with the pool once the queries are answered. *)
Definition rank (all_results : list query_result) (n_results : Z)
    : list query_result :=
  let sorted_results := sort_results_by_similarity all_results in
  let deduplicated_results := deduplicate_results sorted_results in
  py_prefix deduplicated_results n_results.

Definition search (q : query_arg) (n_results : Z)
    : M VectorSearch (list query_result) :=
  all_results <- search_loop (queries_of q) n_results [] ;;
  ret (rank all_results n_results).

Definition search_with_filters (q : query_arg)
    (file_types : option (list string)) (similarity_threshold : Z)
    (n_results : Z) : M VectorSearch (list query_result) :=
  results <- search q (n_results * 2) ;;
  let results :=
    match file_types with
    | Some ((_ :: _) as types) => filter (λ r, r_file_type r ∈ types) results
    | _ => results
    end in
  let results := filter_results_by_threshold results similarity_threshold in
  ret (py_prefix results n_results).

(** *** [update_document] *)

Definition delete_warning (path : string) (e : exn) : string :=
  "Warning: Could not delete existing chunks for " +:+ path +:+ ": " +:+ e.

(** The [try] statement of [update_document]. *)
Definition delete_existing_chunks (path : string) : M VectorSearch unit :=
  try_except
    (ids <- get path ;;
     match ids with
     | [] => ret tt
     | _ :: _ => delete ids
     end)
    (λ e, print_warning (delete_warning path e)).

Definition updated_document (path content : string) : document :=
  {| doc_file_path := path;
     doc_content := content;
     doc_file_type := Some (splitext_lower path);
     doc_file_size := None;
     doc_last_modified := None |}.

Definition update_document (fuel : nat) (path content : string)
    : M VectorSearch unit :=
  delete_existing_chunks path ;;;
  add_documents fuel [updated_document path content].

(** *** The order of operations of the design document

    Deduplicate the pool, then sort it, then truncate it. *)
Definition spec_rank (all_results : list query_result) (n_results : Z)
    : list query_result :=
  let deduplicated_results := deduplicate_results all_results in
  let sorted_results := sort_results_by_similarity deduplicated_results in
  py_prefix sorted_results n_results.

End VectorSearch.

(** ** Predicates on the windows of [chunk_text] *)

(** The start offsets of a sequence of windows increase strictly. *)
Definition starts_increasing (ws : list window) : Prop :=
  ∀ i a b, ws !! i = Some a → ws !! S i = Some b → w_start a < w_start b.

(** Consecutive windows are chained: the next one starts [chunk_overlap]
    before the end of the previous one. *)
Definition chained (cfg : Config) (ws : list window) : Prop :=
  ∀ i a b, ws !! i = Some a → ws !! S i = Some b →
    w_start b = w_end a - chunk_overlap cfg.

(** A window is [text[start : start + chunk_size]], its end clipped to the
    length of the text. *)
Definition well_cut (cfg : Config) (text : string) (w : window) : Prop :=
  w_end w = Z.min (w_start w + chunk_size cfg) (len text) ∧
  w_chunk w = py_slice text (w_start w) (w_start w + chunk_size cfg).

(** What the loop maintains: the chunks appended so far are cut and chained
    as the source says, the first one starts at 0, and [start] is where the
    next one starts. *)
Definition loop_inv (cfg : Config) (text : string) (start : Z)
    (ws : list window) : Prop :=
  Forall (well_cut cfg text) ws ∧ chained cfg ws ∧
  (∀ w, head ws = Some w → w_start w = 0) ∧
  match last ws with
  | None => start = 0
  | Some a => start = w_end a - chunk_overlap cfg
  end.

Definition windows_ok (cfg : Config) (text : string) (ws : list window) : Prop :=
  Forall (well_cut cfg text) ws ∧ chained cfg ws ∧
  (∀ w, head ws = Some w → w_start w = 0).

(** ** Inputs of the repository's tests *)

(** [test_chunk_text]: [Config(chunk_size=10, chunk_overlap=2)]. *)
Definition test_config : Config := {| chunk_size := 10; chunk_overlap := 2 |}.

Definition test_text : string :=
  "This is a very long text that should be chunked into smaller pieces".

(** ** Predicates on the cache table *)

Section CacheTable.
Context `{Library}.

Definition table_keys (table : list cache_row) : list string :=
  content_hash <$> table.

(** The rows [SELECT ... WHERE content_hash = h] selects. *)
Definition rows_for (h : string) (table : list cache_row) : list cache_row :=
  filter (λ r, content_hash r = h) table.

(** A sequence of writes to the cache. *)
Definition cache_all (puts : list (string * ndarray)) (s : Embedder) : Embedder :=
  foldl (λ s p, (_cache_embedding p.1 p.2 s).2) s puts.

End CacheTable.

(** ** Test doubles

    The stand-ins the examples run on, after the mocks of the repository's
    tests: the model answers every text with the same array, arrays are
    lists of float ranks and pickle to themselves, and the digest of a text
    is the text. *)

Definition test_library : Library :=
  {| ndarray := list Z;
     blob := list Z;
     pickle_dumps := λ a, a;
     pickle_loads := λ b, b;
     pickle_loads_dumps := λ _, eq_refl;
     md5_hexdigest := λ content, content;
     model_encode := λ _ _, Ok [1; 2; 3];
     floats := list Z;
     tolist := λ a, a;
     datetime := Z;
     isoformat := λ _, "2024-01-01T00:00:00";
     splitext_lower := λ _, ".cs";
     one_minus := λ d, 100 - d |}.

Definition test_embedder (cfg : Config) : @Embedder test_library :=
  @Embedder_init test_library cfg None.

(** ** Predicates on result lists *)

(** [a] may stand before [b] in a list sorted by decreasing similarity. *)
Definition by_similarity (a b : query_result) : Prop :=
  r_similarity b ≤ r_similarity a.

(** [r] is the result of highest similarity among the results of [pool] for
    its path, and the first of these in [pool]: every earlier result for the
    path is strictly less similar, every later one at most as similar. *)
Definition best_for_path (pool : list query_result) (r : query_result) : Prop :=
  ∃ l1 l2, pool = l1 ++ r :: l2 ∧
    Forall (λ r', r_file_path r' = r_file_path r → r_similarity r' < r_similarity r) l1 ∧
    Forall (λ r', r_file_path r' = r_file_path r → r_similarity r' ≤ r_similarity r) l2.

(** What the scan of [deduplicate_results] maintains, [pool] being the
    results scanned so far: no key occurs twice in [seen_files], every value
    is filed under its own path and is the best result of [pool] for it, and
    every path of [pool] is a key. *)
Definition seen_inv (pool : list query_result)
    (seen_files : list (string * query_result)) : Prop :=
  NoDup seen_files.*1 ∧
  (∀ k r, (k, r) ∈ seen_files → r_file_path r = k ∧ best_for_path pool r) ∧
  (∀ x, x ∈ pool → r_file_path x ∈ seen_files.*1).

(** An in-memory collection: the records it holds, the hits it answers every
    query with (the first [n_results] of them), and whether its write and
    lookup operations raise. *)
Record test_collection := {
  tc_ids : list string;
  tc_answers : list hit;
  tc_unavailable : bool
}.

Definition test_chroma : @Chroma test_library :=
  {| collection := test_collection;
     collection_add := λ c b,
       if tc_unavailable c then Raise "unavailable"
       else Ok {| tc_ids := tc_ids c ++ @all_ids test_library b;
                  tc_answers := tc_answers c;
                  tc_unavailable := tc_unavailable c |};
     collection_get := λ c path,
       if tc_unavailable c then Raise "unavailable"
       else Ok (filter (λ id, String.prefix path id = true) (tc_ids c));
     collection_delete := λ c ids,
       if tc_unavailable c then Raise "unavailable"
       else Ok {| tc_ids := filter (λ id, id ∉ ids) (tc_ids c);
                  tc_answers := tc_answers c;
                  tc_unavailable := tc_unavailable c |};
     collection_query := λ c _ n, Ok (py_prefix (tc_answers c) n) |}.

Definition test_hit (path type : string) (distance : Z) : hit :=
  {| hit_id := path +:+ "_0"; hit_file_path := path; hit_file_type := Some type;
     hit_chunk_index := 0; hit_document := "text"; hit_distance := distance |}.

Definition test_search (answers : list hit) (unavailable : bool)
    : @VectorSearch test_library test_chroma :=
  let c : test_collection :=
    {| tc_ids := []; tc_answers := answers; tc_unavailable := unavailable |} in
  @Build_VectorSearch test_library test_chroma
    (test_embedder {| chunk_size := 100; chunk_overlap := 0 |}) c [] [].

Definition test_result (path : string) (similarity : Z) (chunk : Z) : query_result :=
  {| r_file_path := path; r_content := "text"; r_similarity := similarity;
     r_file_type := ".cs"; r_chunk_index := chunk; r_query := "q" |}.

(** A result passes the filters of [search_with_filters]: its file type is
    in the type set, when a non-empty one is given, and its similarity
    reaches the threshold. *)
Definition passes_filters (file_types : option (list string)) (threshold : Z)
    (r : query_result) : Prop :=
  match file_types with
  | Some ((_ :: _) as types) => r_file_type r ∈ types
  | _ => True
  end ∧ threshold ≤ r_similarity r.

#[global] Instance passes_filters_dec file_types threshold r :
  Decision (passes_filters file_types threshold r).
Proof. unfold passes_filters. destruct file_types as [[|? ?]|]; apply _. Defined.

(** The pool of the three results [a.cs@5, b.cs@9, a.cs@9]. *)
Definition tied_pool : list query_result :=
  [test_result "a.cs" 5 0; test_result "b.cs" 9 0; test_result "a.cs" 9 1].

(** ** Predicates on batches *)

Section Batches.
Context `{lib : Library}.

Definition batch_size (b : batch) : Z := Z.of_nat (length (all_ids b)).

Definition batch_app (b1 b2 : batch) : batch :=
  {| all_ids := all_ids b1 ++ all_ids b2;
     all_embeddings := all_embeddings b1 ++ all_embeddings b2;
     all_metadatas := all_metadatas b1 ++ all_metadatas b2;
     all_documents := all_documents b1 ++ all_documents b2 |}.





(** The metadata [update_document] leaves to the defaults. *)
Definition default_metadata (path : string) (m : metadata) : Prop :=
  file_path m = path ∧ file_size m = 0 ∧ last_modified m = "".

End Batches.

(** An indexer over an empty collection. *)
Definition test_indexer (cfg : Config) (unavailable : bool)
    : @VectorSearch test_library test_chroma :=
  let c : test_collection :=
    {| tc_ids := []; tc_answers := []; tc_unavailable := unavailable |} in
  @Build_VectorSearch test_library test_chroma (test_embedder cfg) c [] [].

Definition test_document (path content : string) : @document test_library :=
  @Build_document test_library path content (Some ".cs") (Some 5) (Some 0).

(** A text of [n] characters. *)
Definition text_of_length (n : nat) : string :=
  string_of_list_ascii (replicate n "x"%char).

(** ** Further predicates and inputs *)

(** ["".join(chunks)]. *)
Definition join (chunks : list string) : string :=
  foldr String.append "" chunks.

Section CacheLookup.
Context `{Library}.

(** The vector the cache holds for a hash, if any: what
    [_get_cached_embedding] returns. *)
Definition cached (e : Embedder) (h : string) : option ndarray :=
  match head (rows_for h (cache_db e)) with
  | Some r => Some (pickle_loads (embedding r))
  | None => None
  end.

End CacheLookup.

(** The distinct elements of a list, each at the place of its first
    occurrence. *)
Fixpoint first_occurrences (ks : list string) : list string :=
  match ks with
  | [] => []
  | k :: ks' => k :: filter (λ k', k' ≠ k) (first_occurrences ks')
  end.

Section BatchShape.
Context `{lib : Library}.

(** The four lists of a batch go together: they have one length, and each
    id is made of the path and the chunk index of the metadata at its
    place. *)
Definition batch_wf (b : batch) : Prop :=
  length (all_embeddings b) = length (all_ids b) ∧
  length (all_metadatas b) = length (all_ids b) ∧
  length (all_documents b) = length (all_ids b) ∧
  Forall2 (λ id m, id = file_path m +:+ "_" +:+ pretty (chunk_index m))
          (all_ids b) (all_metadatas b).

End BatchShape.

(** ** config.py and indexer.py: scanning a directory

    The fields of [Config] the file scanner reads. A path is the list of
    its parts ([Path(p).parts]); [os.path.join(root, name)] appends a part. *)

Record ScanConfig := {
  supported_extensions : list string;
  ignored_folders : list string;
  target_directory : option (list string)
}.

(** [Config.__init__], without the arguments the scanner does not read: the
    defaults stand for the lists that are not given. *)
Definition ScanConfig_init (extensions folders : option (list string))
    (target : option (list string)) : ScanConfig :=
  {| supported_extensions := default [".cs"; ".sql"; ".vb"; ".aspx"] extensions;
     ignored_folders := default [".git"; "node_modules"; "bin"; "obj"; ".vs"] folders;
     target_directory := target |}.

Definition should_ignore_file (cfg : ScanConfig) (path_parts : list string) : bool :=
  existsb (λ ignored_folder, bool_decide (ignored_folder ∈ path_parts))
          (ignored_folders cfg).

(** What [os.walk] finds below a directory: files and directories, by
    name, in the order in which it lists them. There are no symbolic links,
    and every directory can be read. *)
#[warnings="-register-all"]
Inductive node :=
| File (name : string)
| Dir (name : string) (children : list node).

Definition file_names (children : list node) : list string :=
  flat_map (λ c, match c with File f => [f] | Dir _ _ => [] end) children.

(** There is a file named [f] in the directory reached from [n] by the
    directory names [rel]. *)
Inductive file_at : node → list string → string → Prop :=
| file_here d children f :
    File f ∈ children → file_at (Dir d children) [] f
| file_below d children d' sub rel f :
    Dir d' sub ∈ children → file_at (Dir d' sub) rel f →
    file_at (Dir d children) (d' :: rel) f.

Section Scan.
Context `{Library}.

Definition is_supported_file (cfg : ScanConfig) (file_path : string) : bool :=
  bool_decide (splitext_lower file_path ∈ supported_extensions cfg).

(** The body of the loop of [scan_directory] for one directory [root] with
    the files [files]. *)
Definition found_in (cfg : ScanConfig) (root : list string)
    (files : list string) : list (list string) :=
  if should_ignore_file cfg root then []
  else flat_map (λ file,
         if is_supported_file cfg file then
           let file_path := root ++ [file] in
           if should_ignore_file cfg file_path then [] else [file_path]
         else []) files.

(** The loop over [os.walk], top down: the directory itself, then the
    directories in it that are left after the ignored names are removed
    from [dirs], each with all that is below it. *)
Fixpoint walk (cfg : ScanConfig) (root : list string) (n : node)
    {struct n} : list (list string) :=
  match n with
  | File _ => []
  | Dir _ children =>
    found_in cfg root (file_names children) ++
    flat_map (λ child,
      match child with
      | File _ => []
      | Dir d _ =>
        if bool_decide (d ∈ ignored_folders cfg) then []
        else walk cfg (root ++ [d]) child
      end) children
  end.

(** [FileIndexer.scan_directory], the target directory holding [fs].
    [Config.__init__] leaves [target_directory] either unset or an absolute
    path, so that [not target_directory] is the test for [None]. *)
Definition scan_directory (cfg : ScanConfig) (fs : node) : list (list string) :=
  match target_directory cfg with
  | None => []
  | Some root => walk cfg root fs
  end.

(** [FileIndexer.get_file_stats]: the number of files found and, by
    extension, how many of them there are; [path_string] writes a path as
    the string [os.path.splitext] is given. *)
Definition count_file (path_string : list string → string)
    (file_types : list (string * Z)) (file_path : list string)
    : list (string * Z) :=
  let file_ext := splitext_lower (path_string file_path) in
  dict_set file_ext (default 0 (dict_get file_ext file_types) + 1) file_types.

Definition get_file_stats (path_string : list string → string)
    (cfg : ScanConfig) (fs : node) : Z * list (string * Z) :=
  let found_files := scan_directory cfg fs in
  (Z.of_nat (length found_files), foldl (count_file path_string) [] found_files).

End Scan.

Definition sum_values (d : list (string * Z)) : Z := foldr Z.add 0 d.*2.

(** The distinct paths of a pool of results. *)
Definition paths_of (pool : list query_result) : list string :=
  remove_dups (r_file_path <$> pool).

(** * Properties *)

(** ** Slices *)

Lemma len_nonneg s : 0 ≤ len s.
Proof. unfold len. lia. Qed.

Lemma len_empty s : len s = 0 → s = "".
Proof. destruct s; [done|]. unfold len. simpl. lia. Qed.

Lemma py_index_clip n j : 0 ≤ n → py_index n (Z.min j n) = py_index n j.
Proof.
  intros Hn. unfold py_index.
  destruct (Z.ltb_spec j 0), (Z.ltb_spec (Z.min j n) 0); lia.
Qed.

Lemma py_slice_clip s i j : py_slice s i (Z.min j (len s)) = py_slice s i j.
Proof. unfold py_slice. by rewrite py_index_clip by apply len_nonneg. Qed.

(** ** The chunking loop *)

Section ChunkLoop.
Context (cfg : Config) (text : string).

Lemma chained_snoc ws w :
  chained cfg ws →
  (∀ a, last ws = Some a → w_start w = w_end a - chunk_overlap cfg) →
  chained cfg (ws ++ [w]).
Proof.
  intros Hws Hlast i a b Ha Hb.
  destruct (decide (S i < length ws)%nat) as [Hlt|Hge].
  - rewrite lookup_app_l in Ha by lia. rewrite lookup_app_l in Hb by lia. eauto.
  - assert (i < length ws)%nat as Hi.
    { apply lookup_lt_Some in Hb. rewrite length_app in Hb. simpl in Hb. lia. }
    rewrite lookup_app_l in Ha by lia.
    rewrite lookup_app_r in Hb by lia.
    replace (S i - length ws)%nat with 0%nat in Hb by lia.
    simpl in Hb. injection Hb as <-.
    apply Hlast. rewrite last_lookup.
    replace (Nat.pred (length ws)) with i by lia. done.
Qed.

Lemma chunk_loop_windows fuel : ∀ start ws,
  loop_inv cfg text start ws →
  windows_ok cfg text (emitted (chunk_loop fuel cfg text start ws)).
Proof.
  induction fuel as [|fuel IH]; intros start ws (Hcut & Hch & Hhd & Hlast); simpl.
  { done. }
  destruct (Z.ltb_spec start (len text)) as [Hlt|Hge]; [|done].
  set (w := {| w_start := start; w_end := _; w_chunk := _ |}).
  assert (loop_inv cfg text (w_end w - chunk_overlap cfg) (ws ++ [w])) as Hinv.
  { split_and!.
    - apply Forall_app. split; [done|]. constructor; [|done].
      split; [done|]. simpl. by rewrite py_slice_clip.
    - apply chained_snoc; [done|]. intros a Ha. rewrite Ha in Hlast. done.
    - intros w'. destruct ws as [|w0 ws]; simpl.
      + intros [= <-]. simpl. by simpl in Hlast.
      + apply Hhd.
    - by rewrite last_snoc. }
  simpl in Hinv.
  destruct (_ >=? _).
  - destruct Hinv as (? & ? & ? & _). done.
  - by apply IH.
Qed.

Lemma chunk_loop_extends fuel : ∀ start ws,
  ws `prefix_of` emitted (chunk_loop fuel cfg text start ws).
Proof.
  induction fuel as [|fuel IH]; intros start ws; simpl; [done|].
  destruct (_ <? _); [|done].
  destruct (_ >=? _); simpl.
  - by apply prefix_app_r.
  - etrans; [|apply IH]. by apply prefix_app_r.
Qed.

(** The first pass through the loop appends a window. *)
Lemma chunk_loop_first fuel ws start :
  start < len text →
  (length ws < length (emitted (chunk_loop (S fuel) cfg text start ws)))%nat.
Proof.
  intros Hlt. simpl.
  destruct (Z.ltb_spec start (len text)); [|lia].
  match goal with |- context [ws ++ [?w]] => set (w0 := w) end.
  assert (ws ++ [w0] `prefix_of`
          emitted (if (w_end w0 - chunk_overlap cfg >=? len text)
                   then Returned (ws ++ [w0])
                   else chunk_loop fuel cfg text (w_end w0 - chunk_overlap cfg) (ws ++ [w0]))) as Hp.
  { destruct (_ >=? _); [done|apply chunk_loop_extends]. }
  apply prefix_length in Hp. rewrite length_app in Hp. simpl in Hp.
  subst w0. simpl in Hp. lia.
Qed.

(** With a positive overlap the loop is never left: once the end of a window
    reaches the length of the text, the next start is [len(text) - overlap],
    which is below [len(text)], neither test of the loop fires, and the same
    window is cut again. *)
Lemma chunk_loop_running fuel : ∀ start ws,
  0 < chunk_overlap cfg → start < len text →
  ∃ ws', chunk_loop fuel cfg text start ws = Running ws'.
Proof.
  induction fuel as [|fuel IH]; intros start ws Hov Hlt; simpl; [by eexists|].
  destruct (Z.ltb_spec start (len text)); [|lia].
  destruct (Z.geb_spec (Z.min (start + chunk_size cfg) (len text) - chunk_overlap cfg)
                       (len text)); [lia|].
  apply IH; lia.
Qed.

Lemma starts_increasing_snoc ws w :
  starts_increasing ws →
  (∀ a, last ws = Some a → w_start a < w_start w) →
  starts_increasing (ws ++ [w]).
Proof.
  intros Hws Hlast i a b Ha Hb.
  destruct (decide (S i < length ws)%nat) as [Hlt|Hge].
  - rewrite lookup_app_l in Ha by lia. rewrite lookup_app_l in Hb by lia. eauto.
  - assert (i < length ws)%nat as Hi.
    { apply lookup_lt_Some in Hb. rewrite length_app in Hb. simpl in Hb. lia. }
    rewrite lookup_app_l in Ha by lia.
    rewrite lookup_app_r in Hb by lia.
    replace (S i - length ws)%nat with 0%nat in Hb by lia.
    simpl in Hb. injection Hb as <-.
    apply Hlast. rewrite last_lookup.
    replace (Nat.pred (length ws)) with i by lia. done.
Qed.

(** Without overlap, and with a positive chunk size, every window starts
    after the one before it. *)
Lemma chunk_loop_increasing fuel : ∀ start ws,
  chunk_overlap cfg = 0 → 0 < chunk_size cfg →
  starts_increasing ws →
  (∀ a, last ws = Some a → w_start a < start) →
  starts_increasing (emitted (chunk_loop fuel cfg text start ws)).
Proof.
  induction fuel as [|fuel IH]; intros start ws Hov Hcs Hws Hlast; simpl; [done|].
  destruct (Z.ltb_spec start (len text)); [|done].
  set (w := {| w_start := start; w_end := _; w_chunk := _ |}).
  assert (starts_increasing (ws ++ [w])) as Hinc.
  { apply starts_increasing_snoc; [done|]. intros a Ha. by apply Hlast. }
  destruct (_ >=? _); [done|].
  apply IH; [done..|].
  intros a. rewrite last_snoc. intros [= <-]. simpl. lia.
Qed.

(** Without overlap, and with a positive chunk size, the loop is left after
    at most [len(text)] passes. *)
Lemma chunk_loop_returns fuel : ∀ start ws,
  chunk_overlap cfg = 0 → 0 < chunk_size cfg → 0 ≤ start ≤ len text →
  len text - start < Z.of_nat fuel →
  ∃ ws', chunk_loop fuel cfg text start ws = Returned ws'.
Proof.
  induction fuel as [|fuel IH]; intros start ws Hov Hcs H0 Hfuel; simpl; [lia|].
  destruct (Z.ltb_spec start (len text)); [|by eexists].
  destruct (Z.geb_spec (Z.min (start + chunk_size cfg) (len text) - chunk_overlap cfg)
                       (len text)); [by eexists|].
  apply IH; lia.
Qed.

End ChunkLoop.

Lemma len_pos text : text ≠ "" → 0 < len text.
Proof.
  intros Hne. pose proof (len_nonneg text).
  destruct (decide (len text = 0)) as [H0|]; [|lia].
  by apply len_empty in H0.
Qed.

Lemma chunk_text_run_nonempty cfg text fuel :
  text ≠ "" → chunk_text_run fuel cfg text = chunk_loop fuel cfg text 0 [].
Proof.
  intros Hne. unfold chunk_text_run.
  destruct (String.eqb_spec text ""); done.
Qed.

(** Whatever the chunk size, a non-empty text and a positive overlap make
    [chunk_text] loop forever. *)
Lemma chunk_text_never_returns_with_overlap cfg text fuel :
  text ≠ "" → 0 < chunk_overlap cfg → chunk_text_pure fuel cfg text = None.
Proof.
  intros Hne Hov. unfold chunk_text_pure.
  rewrite chunk_text_run_nonempty by done.
  destruct (chunk_loop_running cfg text fuel 0 [] Hov (len_pos _ Hne)) as [ws ->].
  done.
Qed.

(** Without overlap [chunk_text] returns, after at most [len(text)] passes
    through its loop, and the start offsets of its windows increase. *)
Lemma chunk_text_returns_without_overlap cfg text :
  chunk_overlap cfg = 0 → 0 < chunk_size cfg →
  (∃ chunks, chunk_text_pure (S (String.length text)) cfg text = Some chunks) ∧
  (∀ fuel, starts_increasing (emitted (chunk_text_run fuel cfg text))).
Proof.
  intros Hov Hcs. split.
  - unfold chunk_text_pure, chunk_text_run.
    destruct (String.eqb_spec text "") as [->|Hne]; [by eexists|].
    destruct (chunk_loop_returns cfg text (S (String.length text)) 0 [] Hov Hcs)
      as [ws ->]; [|unfold len; lia|by eexists].
    pose proof (len_nonneg text). lia.
  - intros fuel. unfold chunk_text_run.
    destruct (String.eqb_spec text ""); [by intros i a b ?|].
    apply chunk_loop_increasing; [done..|by intros i a b ?|done].
Qed.

(** C1, on the input of the repository's own test [test_chunk_text]
    ([chunk_size=10], [chunk_overlap=2], which satisfy
    [0 <= overlap < chunkSize], and a text of 67 characters): [chunk_text]
    does not return, however many iterations of its loop are observed, and
    the start offsets of the windows it emits stop increasing: once a window
    has reached the end of the text, the window starting at offset 65 is
    emitted again and again. *)
Theorem chunk_text_test_input_never_returns :
  0 ≤ chunk_overlap test_config < chunk_size test_config ∧
  test_text ≠ "" ∧
  (∀ fuel, chunk_text_pure fuel test_config test_text = None) ∧
  w_start <$> emitted (chunk_text_run 12 test_config test_text)
    = [0; 8; 16; 24; 32; 40; 48; 56; 64; 65; 65; 65] ∧
  ¬ starts_increasing (emitted (chunk_text_run 12 test_config test_text)).
Proof.
  split; [simpl; lia|]. split; [done|]. split; [|split].
  - intros fuel. by apply chunk_text_never_returns_with_overlap.
  - vm_compute. reflexivity.
  - intros Hinc.
    specialize (Hinc 9%nat).
    vm_compute in Hinc.
    by specialize (Hinc _ _ eq_refl eq_refl).
Qed.

(** C6: [chunk_text] returns the empty list on the empty text, and only on
    it; on any other text the first window emitted starts at offset 0; every
    window emitted is [text[start : start + chunk_size]], its end clipped to
    the length of the text; and the window emitted after one that ends at
    [end] starts at [end - chunk_overlap]. The windows are those emitted in
    the first [fuel] passes through the loop, for every [fuel], and the list
    returned is the list of their chunks. *)
Theorem chunk_text_windows cfg text fuel :
  (text = "" → chunk_text_pure fuel cfg text = Some []) ∧
  (chunk_text_pure fuel cfg text = Some [] → text = "") ∧
  (text ≠ "" → (0 < fuel)%nat →
     ∃ w ws, emitted (chunk_text_run fuel cfg text) = w :: ws ∧ w_start w = 0) ∧
  Forall (well_cut cfg text) (emitted (chunk_text_run fuel cfg text)) ∧
  chained cfg (emitted (chunk_text_run fuel cfg text)) ∧
  (∀ chunks, chunk_text_pure fuel cfg text = Some chunks →
     chunks = w_chunk <$> emitted (chunk_text_run fuel cfg text)).
Proof.
  assert (text ≠ "" → (0 < fuel)%nat →
          ∃ w ws, emitted (chunk_text_run fuel cfg text) = w :: ws ∧ w_start w = 0)
    as Hfirst.
  { intros Hne Hfuel. rewrite chunk_text_run_nonempty by done.
    destruct fuel as [|fuel]; [lia|].
    pose proof (chunk_loop_first cfg text fuel [] 0 (len_pos _ Hne)) as Hlen.
    assert (loop_inv cfg text 0 []) as Hinv by (split_and!; done).
    apply (chunk_loop_windows cfg text (S fuel)) in Hinv as (_ & _ & Hhd).
    destruct (emitted _) as [|w ws]; [simpl in Hlen; lia|].
    exists w, ws. split; [done|]. by apply Hhd. }
  assert (windows_ok cfg text (emitted (chunk_text_run fuel cfg text))) as (Hcut & Hch & _).
  { unfold chunk_text_run. destruct (String.eqb_spec text "").
    - split_and!; [constructor| |done]. intros i a b Ha. done.
    - apply chunk_loop_windows. split_and!; done. }
  split_and!; try done.
  - intros ->. done.
  - intros Hret. destruct (decide (text = "")) as [|Hne]; [done|].
    unfold chunk_text_pure in Hret.
    destruct fuel as [|fuel].
    { rewrite chunk_text_run_nonempty in Hret by done. done. }
    destruct (Hfirst Hne ltac:(lia)) as (w & ws & Hem & _).
    destruct (chunk_text_run _ _ _) as [ws'|ws']; [|done].
    simpl in *. subst ws'. done.
  - intros chunks Hret. unfold chunk_text_pure in Hret.
    destruct (chunk_text_run _ _ _); simpl in *; congruence.
Qed.

Lemma chunk_text_windows_witness :
  ("" = "" → chunk_text_pure 5 {| chunk_size := 5; chunk_overlap := 0 |} "" = Some []) ∧
  chunk_text_pure 5 {| chunk_size := 5; chunk_overlap := 0 |} "hello world!"
    = Some ["hello"; " worl"; "d!"] ∧
  ∃ w ws, emitted (chunk_text_run 5 {| chunk_size := 5; chunk_overlap := 0 |} "hello world!")
            = w :: ws ∧ w_start w = 0.
Proof.
  split_and!.
  - apply (chunk_text_windows {| chunk_size := 5; chunk_overlap := 0 |} "" 5).
  - vm_compute. reflexivity.
  - apply (chunk_text_windows {| chunk_size := 5; chunk_overlap := 0 |} "hello world!" 5).
    + done.
    + lia.
Defined.

(** Slices with Python's bounds. *)
Example py_slice_examples :
  py_slice "hello" 1 3 = "el" ∧ py_slice "hello" 3 10 = "lo" ∧
  py_slice "hello" (-3) 5 = "llo" ∧ py_slice "hello" (-9) 2 = "he" ∧
  py_slice "hello" 4 2 = "".
Proof. repeat split. Qed.

(** The default configuration, [chunk_size=1000] and [chunk_overlap=100],
    on a text shorter than the overlap: the whole text is emitted, the next
    start is negative, and the same slice is emitted over and over. *)
Example chunk_text_default_config :
  let cfg := {| chunk_size := 1000; chunk_overlap := 100 |} in
  (∀ fuel, chunk_text_pure fuel cfg "hello world" = None) ∧
  emitted (chunk_text_run 3 cfg "hello world")
  = [{| w_start := 0; w_end := 11; w_chunk := "hello world" |};
     {| w_start := -89; w_end := 11; w_chunk := "hello world" |};
     {| w_start := -89; w_end := 11; w_chunk := "hello world" |}].
Proof.
  split.
  - intros fuel. apply chunk_text_never_returns_with_overlap; [done|simpl; lia].
  - vm_compute. reflexivity.
Qed.

(** ** The fingerprint cache *)

Section Cache.
Context `{Library}.

Lemma rows_for_insert_or_replace row table :
  rows_for (content_hash row) (insert_or_replace row table) = [row].
Proof.
  unfold rows_for, insert_or_replace.
  rewrite filter_app, filter_cons_True, filter_nil by done.
  induction table as [|r table IH]; [done|].
  destruct (decide (content_hash r = content_hash row)).
  - by rewrite filter_cons_False by naive_solver.
  - rewrite filter_cons_True by done. simpl.
    by rewrite filter_cons_False by done.
Qed.

Lemma rows_for_insert_or_replace_ne h row table :
  h ≠ content_hash row →
  rows_for h (insert_or_replace row table) = rows_for h table.
Proof.
  intros Hne. unfold rows_for, insert_or_replace.
  rewrite filter_app, filter_cons_False, filter_nil, app_nil_r by done.
  induction table as [|r table IH]; [done|].
  destruct (decide (content_hash r = content_hash row)) as [Heq|Hneq].
  - rewrite (filter_cons_False _ r) by naive_solver.
    rewrite (filter_cons_False _ r) by congruence. done.
  - rewrite (filter_cons_True (λ r, content_hash r ≠ content_hash row) r) by done.
    destruct (decide (content_hash r = h)).
    + rewrite !filter_cons_True by done. by rewrite IH.
    + rewrite !filter_cons_False by done. done.
Qed.

Lemma table_keys_insert_or_replace row table :
  table_keys (insert_or_replace row table)
  = filter (λ k, k ≠ content_hash row) (table_keys table) ++ [content_hash row].
Proof.
  unfold table_keys, insert_or_replace. rewrite fmap_app. f_equal.
  induction table as [|r table IH]; [done|]. rewrite fmap_cons.
  destruct (decide (content_hash r = content_hash row)).
  - rewrite filter_cons_False by naive_solver.
    rewrite (filter_cons_False _ (content_hash r)) by naive_solver. done.
  - rewrite filter_cons_True by done.
    rewrite (filter_cons_True _ (content_hash r)) by done.
    rewrite fmap_cons. by rewrite IH.
Qed.

(** The primary key: no two rows of the table carry the same hash. *)
Lemma insert_or_replace_NoDup row table :
  NoDup (table_keys table) → NoDup (table_keys (insert_or_replace row table)).
Proof.
  intros Hnd. rewrite table_keys_insert_or_replace.
  apply NoDup_app. split_and!.
  - by apply NoDup_filter.
  - intros k [Hk _]%list_elem_of_filter Heq%list_elem_of_singleton. done.
  - apply NoDup_singleton.
Qed.

Lemma length_filter_ne_NoDup (k : string) (keys : list string) :
  NoDup keys → k ∈ keys →
  S (length (filter (λ k', k' ≠ k) keys)) = length keys.
Proof.
  induction 1 as [|k0 keys Hnotin Hnd IH]; [by intros ?%elem_of_nil|].
  intros [->|Hin]%elem_of_cons.
  - rewrite filter_cons_False by naive_solver.
    simpl. f_equal. clear IH Hnd.
    induction keys as [|k1 keys IH]; [done|].
    apply not_elem_of_cons in Hnotin as [? ?].
    rewrite filter_cons_True by done. simpl. by rewrite IH.
  - rewrite filter_cons_True by (intros ->; done).
    simpl. f_equal. by apply IH.
Qed.

(** Writing a hash that is present replaces its row: the table does not
    grow. *)
Lemma insert_or_replace_length row table :
  NoDup (table_keys table) → content_hash row ∈ table_keys table →
  length (insert_or_replace row table) = length table.
Proof.
  intros Hnd Hin.
  rewrite <-(length_fmap content_hash (insert_or_replace row table)).
  fold (table_keys (insert_or_replace row table)).
  rewrite table_keys_insert_or_replace, length_app. simpl.
  rewrite Nat.add_1_r, length_filter_ne_NoDup by done.
  unfold table_keys. by rewrite length_fmap.
Qed.

Lemma cache_all_rows_for f puts : ∀ s,
  Forall (λ p, p.1 ≠ f) puts →
  rows_for f (cache_db (cache_all puts s)) = rows_for f (cache_db s).
Proof.
  induction puts as [|[h e] puts IH]; intros s Hne; [done|].
  apply Forall_cons in Hne as [Hh Hne]. simpl in *.
  rewrite IH by done. simpl.
  by rewrite rows_for_insert_or_replace_ne by done.
Qed.

Lemma _get_cached_embedding_rows h s :
  (_get_cached_embedding h s).1
  = Ok (match head (rows_for h (cache_db s)) with
        | Some r => Some (pickle_loads (embedding r))
        | None => None
        end).
Proof. done. Qed.

(** C9: the cache table keeps at most one row per fingerprint. After
    [_cache_embedding f v] there is exactly one row for [f]; if no two rows
    shared a hash before, none do afterwards; if [f] was present, the table
    has as many rows as before (the row is overwritten, not appended); and
    [_get_cached_embedding f] returns [v], also after any sequence of writes
    to other fingerprints. The table a fresh cache file starts with is
    empty. *)
Theorem cache_put_then_get (s : Embedder) (f : string) (v : ndarray) :
  let s1 := (_cache_embedding f v s).2 in
  length (rows_for f (cache_db s1)) = 1%nat ∧
  (NoDup (table_keys (cache_db s)) → NoDup (table_keys (cache_db s1))) ∧
  (NoDup (table_keys (cache_db s)) → f ∈ table_keys (cache_db s) →
     length (cache_db s1) = length (cache_db s)) ∧
  (∀ puts, Forall (λ p, p.1 ≠ f) puts →
     (_get_cached_embedding f (cache_all puts s1)).1 = Ok (Some v)) ∧
  (∀ cfg, table_keys (cache_db (Embedder_init cfg None)) = []).
Proof.
  intros s1.
  assert (rows_for f (cache_db s1) = [{| content_hash := f; embedding := pickle_dumps v;
                                         created_at := clock s |}]) as Hrows.
  { apply (rows_for_insert_or_replace
             {| content_hash := f; embedding := pickle_dumps v; created_at := clock s |}). }
  split; [by rewrite Hrows|]. split; [apply insert_or_replace_NoDup|].
  split; [intros Hnd Hin; by apply insert_or_replace_length|].
  split; [|done].
  intros puts Hne. rewrite _get_cached_embedding_rows.
  rewrite cache_all_rows_for, Hrows by done. simpl.
  by rewrite pickle_loads_dumps.
Qed.

(** C4: if a call of [get_embedding] returns a vector, a second call on the
    same text returns the same vector from the cache, without calling
    [model.encode] and without changing anything; the two calls together
    call [model.encode] at most once, and only on this text. *)
Theorem get_embedding_twice (text : string) (s s1 : Embedder) (v : ndarray) :
  get_embedding text s = (Ok v, s1) →
  get_embedding text s1 = (Ok v, s1) ∧
  _get_cached_embedding (get_content_hash text) s1 = (Ok (Some v), s1) ∧
  (encoded s1 = encoded s ∨ encoded s1 = encoded s ++ [text]).
Proof.
  unfold get_embedding, bind, _get_cached_embedding.
  fold (rows_for (get_content_hash text) (cache_db s)).
  fold (rows_for (get_content_hash text) (cache_db s1)).
  destruct (head (rows_for _ (cache_db s))) as [r|] eqn:Hhit.
  - intros [= <- <-]. rewrite Hhit. auto.
  - unfold generate_embedding, bind, _load_model, model_encode_call. simpl.
    destruct (model_encode (encoded s) text) as [e| |]; [|done..].
    simpl. intros [= <- <-]. simpl.
    set (row := {| content_hash := get_content_hash text;
                   embedding := pickle_dumps e; created_at := clock s |}).
    change (get_content_hash text) with (content_hash row).
    rewrite rows_for_insert_or_replace. simpl.
    rewrite pickle_loads_dumps. auto.
Qed.

End Cache.

Lemma cache_put_then_get_witness :
  let s := (@_cache_embedding test_library "k" [7]
              (@Embedder_init test_library test_config None)).2 in
  let s1 := (@_cache_embedding test_library "k" [8] s).2 in
  length (@cache_db test_library s1) = length (@cache_db test_library s) ∧
  (@_get_cached_embedding test_library "k"
     (@cache_all test_library [("j", [9])] s1)).1 = Ok (Some [8]).
Proof.
  intros s s1.
  pose proof (@cache_put_then_get test_library s "k" [8]) as (_ & _ & Hlen & Hget & _).
  split.
  - apply Hlen; vm_compute.
    + apply NoDup_singleton.
    + apply list_elem_of_singleton. reflexivity.
  - apply Hget. repeat constructor. simpl. discriminate.
Defined.

Lemma get_embedding_twice_witness :
  let s := test_embedder test_config in
  let s1 := (@get_embedding test_library "SELECT 1" s).2 in
  @get_embedding test_library "SELECT 1" s1 = (Ok [1; 2; 3], s1) ∧
  @encoded test_library s1 = ["SELECT 1"].
Proof.
  intros s s1.
  destruct (@get_embedding_twice test_library "SELECT 1" s s1 [1; 2; 3] eq_refl)
    as (H2 & _ & _).
  split; [exact H2|reflexivity].
Defined.

(** ** Sorting by similarity *)

Lemma StronglySorted_sublist {A} (R : A → A → Prop) (l1 l2 : list A) :
  l1 `sublist_of` l2 → StronglySorted R l2 → StronglySorted R l1.
Proof.
  induction 1 as [|x l1 l2 Hsub IH|x l1 l2 Hsub IH]; intros Hs; [done|..].
  - apply StronglySorted_inv in Hs as [Hs Hx]. constructor; [by apply IH|].
    apply Forall_forall. intros y Hy. rewrite Forall_forall in Hx.
    apply Hx. by eapply elem_of_sublist.
  - apply StronglySorted_inv in Hs as [Hs _]. by apply IH.
Qed.

Lemma filter_cons_inv {A} (P : A → Prop) `{!∀ x, Decision (P x)} (l : list A) x t :
  filter P l = x :: t →
  ∃ l1 l2, l = l1 ++ x :: l2 ∧ Forall (λ y, ¬ P y) l1.
Proof.
  induction l as [|y l IH]; [done|].
  destruct (decide (P y)) as [Hy|Hy].
  - rewrite filter_cons_True by done. intros [= -> <-].
    by exists [], l.
  - rewrite filter_cons_False by done. intros (l1 & l2 & -> & Hl1)%IH.
    exists (y :: l1), l2. split; [done|]. by constructor.
Qed.

Lemma insert_by_similarity_perm x l : insert_by_similarity x l ≡ₚ x :: l.
Proof.
  induction l as [|y l IH]; simpl; [done|].
  destruct (_ <? _); [|done].
  rewrite IH. apply Permutation_swap.
Qed.

Lemma sort_results_by_similarity_perm l : sort_results_by_similarity l ≡ₚ l.
Proof.
  induction l as [|x l IH]; [done|].
  unfold sort_results_by_similarity in *. simpl.
  by rewrite insert_by_similarity_perm, IH.
Qed.

Lemma insert_by_similarity_sorted x l :
  StronglySorted by_similarity l →
  StronglySorted by_similarity (insert_by_similarity x l).
Proof.
  induction 1 as [|y l Hs IH Hy]; simpl.
  { repeat constructor. }
  destruct (Z.ltb_spec (r_similarity x) (r_similarity y)).
  - constructor; [done|].
    rewrite insert_by_similarity_perm. constructor; [|done].
    unfold by_similarity. lia.
  - constructor; [by constructor|].
    constructor; [unfold by_similarity; lia|].
    eapply Forall_impl; [exact Hy|]. unfold by_similarity. intros; simpl in *; lia.
Qed.

(** The sorted list is in non-increasing order of similarity. *)
Lemma sort_results_by_similarity_sorted l :
  StronglySorted by_similarity (sort_results_by_similarity l).
Proof.
  induction l as [|x l IH]; [constructor|].
  by apply insert_by_similarity_sorted.
Qed.

Lemma insert_by_similarity_stable k x l :
  filter (λ r, r_similarity r = k) (insert_by_similarity x l)
  = filter (λ r, r_similarity r = k) (x :: l).
Proof.
  induction l as [|y l IH]; simpl; [done|].
  destruct (Z.ltb_spec (r_similarity x) (r_similarity y)); [|done].
  destruct (decide (r_similarity y = k)).
  - rewrite (filter_cons_True _ y) by done. rewrite IH.
    rewrite (filter_cons_False _ x) by lia.
    rewrite (filter_cons_False _ x) by lia.
    by rewrite filter_cons_True by done.
  - rewrite (filter_cons_False _ y) by done. rewrite IH.
    destruct (decide (r_similarity x = k)).
    + rewrite !(filter_cons_True _ x) by done.
      by rewrite filter_cons_False by done.
    + rewrite !(filter_cons_False _ x) by done.
      by rewrite filter_cons_False by done.
Qed.

(** The sort is stable: results of equal similarity keep their order. *)
Lemma sort_results_by_similarity_stable k l :
  filter (λ r, r_similarity r = k) (sort_results_by_similarity l)
  = filter (λ r, r_similarity r = k) l.
Proof.
  induction l as [|x l IH]; [done|].
  unfold sort_results_by_similarity in *. simpl.
  rewrite insert_by_similarity_stable.
  destruct (decide (r_similarity x = k)).
  - rewrite !(filter_cons_True _ x) by done. by rewrite IH.
  - rewrite !(filter_cons_False _ x) by done. by rewrite IH.
Qed.

(** ** The best result of a path *)

Lemma best_for_path_elem_of pool r : best_for_path pool r → r ∈ pool.
Proof. intros (l1 & l2 & -> & _). set_solver. Qed.

Lemma best_for_path_max pool r r' :
  best_for_path pool r → r' ∈ pool → r_file_path r' = r_file_path r →
  r_similarity r' ≤ r_similarity r.
Proof.
  intros (l1 & l2 & -> & H1 & H2) Hin Hp.
  rewrite Forall_forall in H1, H2.
  apply elem_of_app in Hin as [Hin|[->|Hin]%elem_of_cons].
  - specialize (H1 _ Hin Hp). lia.
  - lia.
  - by apply H2.
Qed.

Lemma best_for_path_snoc pool r x :
  best_for_path pool r →
  (r_file_path x = r_file_path r → r_similarity x ≤ r_similarity r) →
  best_for_path (pool ++ [x]) r.
Proof.
  intros (l1 & l2 & -> & H1 & H2) Hx.
  exists l1, (l2 ++ [x]). split_and!; [by rewrite <-app_assoc|done|].
  apply Forall_app. split; [done|]. by constructor.
Qed.

(** A path has at most one best result. *)
Lemma best_for_path_unique pool r r' :
  best_for_path pool r → best_for_path pool r' →
  r_file_path r = r_file_path r' → r = r'.
Proof.
  intros (a1 & a2 & -> & Ha1 & Ha2) (b1 & b2 & Heq & Hb1 & Hb2) Hp.
  rewrite Forall_forall in Ha1, Ha2, Hb1, Hb2.
  apply app_eq_inv in Heq as [(k & -> & Hk)|(k & -> & Hk)].
  - destruct k as [|y k]; simpl in Hk; injection Hk as Hy Hb2'; [done|].
    subst y b2.
    assert (r_similarity r' < r_similarity r) by (apply Ha1; [set_solver|done]).
    assert (r_similarity r ≤ r_similarity r') by (apply Hb2; [set_solver|done]).
    lia.
  - destruct k as [|y k]; simpl in Hk; injection Hk as Hy Ha2'; [done|].
    subst y a2.
    assert (r_similarity r < r_similarity r') by (apply Hb1; [set_solver|done]).
    assert (r_similarity r' ≤ r_similarity r) by (apply Ha2; [set_solver|done]).
    lia.
Qed.

(** The best result of a path in the sorted pool is its best result in the
    pool: the sort is stable. *)
Lemma best_for_path_sorted pool r :
  best_for_path (sort_results_by_similarity pool) r → best_for_path pool r.
Proof.
  intros Hbest.
  pose proof Hbest as (s1 & s2 & HS & Hs1 & Hs2).
  set (P := λ r', r_file_path r' = r_file_path r ∧ r_similarity r' = r_similarity r).
  assert (filter P (sort_results_by_similarity pool) = filter P pool) as Hst.
  { unfold P. rewrite <-!(list_filter_filter (λ r', r_file_path r' = r_file_path r)).
    by rewrite sort_results_by_similarity_stable. }
  rewrite HS, filter_app, filter_cons_True in Hst by done.
  assert (filter P s1 = []) as Hnil.
  { clear -Hs1. induction s1 as [|y s1 IH]; [done|].
    apply Forall_cons in Hs1 as [Hy Hs1].
    rewrite filter_cons_False; [by apply IH|].
    intros [Hp Hk]. specialize (Hy Hp). lia. }
  rewrite Hnil in Hst. simpl in Hst. symmetry in Hst.
  apply filter_cons_inv in Hst as (l1 & l2 & -> & Hl1).
  assert (∀ r', r' ∈ l1 ++ r :: l2 → r_file_path r' = r_file_path r →
                r_similarity r' ≤ r_similarity r) as Hmax.
  { intros r' Hin. apply (best_for_path_max _ _ _ Hbest).
    by rewrite sort_results_by_similarity_perm. }
  exists l1, l2. split_and!; [done|..]; apply Forall_forall.
  - intros r' Hin Hp. rewrite Forall_forall in Hl1.
    specialize (Hl1 _ Hin). specialize (Hmax r' ltac:(set_solver) Hp).
    unfold P in Hl1. destruct (decide (r_similarity r' = r_similarity r)); [|lia].
    naive_solver.
  - intros r' Hin Hp. apply Hmax; [set_solver|done].
Qed.

(** ** The dictionary [seen_files] *)

Section Dict.
Context {V : Type}.
Implicit Types (d : list (string * V)) (k : string) (v : V).

Lemma dict_get_None d k : dict_get k d = None ↔ k ∉ d.*1.
Proof.
  induction d as [|[k' v'] d IH]; simpl.
  - split; [intros _; apply not_elem_of_nil|done].
  - rewrite not_elem_of_cons. destruct (decide (k' = k)) as [->|Hne].
    + split; [done|]. by intros [? _].
    + rewrite IH. split; [|by intros [_ ?]].
      intros ?. split; [congruence|done].
Qed.

Lemma dict_get_Some d k v : dict_get k d = Some v → (k, v) ∈ d.
Proof.
  induction d as [|[k' v'] d IH]; simpl; [done|].
  destruct (decide (k' = k)) as [->|].
  - intros [= ->]. by left.
  - intros ?. right. by apply IH.
Qed.

(** A key that is absent is appended. *)
Lemma dict_set_new d k v : dict_get k d = None → dict_set k v d = d ++ [(k, v)].
Proof.
  induction d as [|[k' v'] d IH]; simpl; [done|].
  destruct (decide (k' = k)); [done|]. intros ?. by rewrite IH.
Qed.

(** A key that is present keeps its place. *)
Lemma dict_set_keys d k v : k ∈ d.*1 → (dict_set k v d).*1 = d.*1.
Proof.
  induction d as [|[k' v'] d IH]; simpl; [by intros ?%elem_of_nil|].
  destruct (decide (k' = k)) as [->|]; [done|].
  intros [?|?]%elem_of_cons; [done|]. simpl. f_equal. by apply IH.
Qed.

Lemma elem_of_dict_set d k v k' v' :
  NoDup d.*1 → (k', v') ∈ dict_set k v d →
  (k' = k ∧ v' = v) ∨ ((k', v') ∈ d ∧ k' ≠ k).
Proof.
  induction d as [|[k0 v0] d IH]; simpl.
  - intros _ [=]%list_elem_of_singleton. naive_solver.
  - intros [Hk0 Hnd]%NoDup_cons.
    destruct (decide (k0 = k)) as [->|Hne].
    + intros [[=]|Hin]%elem_of_cons; [naive_solver|].
      right. split; [by right|]. intros ->.
      apply Hk0. by apply (list_elem_of_fmap_2 fst) in Hin.
    + intros [[= -> ->]|Hin]%elem_of_cons.
      * right. split; [by left|done].
      * destruct (IH Hnd Hin) as [?|[? ?]]; [by left|].
        right. split; [by right|done].
Qed.

Lemma dict_binding_unique d k v v' :
  NoDup d.*1 → (k, v) ∈ d → (k, v') ∈ d → v = v'.
Proof.
  induction d as [|[k0 v0] d IH]; simpl; [by intros _ ?%elem_of_nil|].
  intros [Hk0 Hnd]%NoDup_cons Hv Hv'.
  apply elem_of_cons in Hv as [[= -> ->]|Hv];
    apply elem_of_cons in Hv' as [[=]|Hv']; subst.
  - done.
  - destruct Hk0. by apply (list_elem_of_fmap_2 fst) in Hv'.
  - destruct Hk0. by apply (list_elem_of_fmap_2 fst) in Hv.
  - by apply IH.
Qed.

End Dict.

(** ** Deduplication *)

Lemma seen_step_inv pool seen x :
  seen_inv pool seen → seen_inv (pool ++ [x]) (seen_step seen x).
Proof.
  intros (Hnd & Hval & Hcov). unfold seen_step.
  destruct (dict_get (r_file_path x) seen) as [m|] eqn:Hget.
  - apply dict_get_Some in Hget as Hm.
    destruct (Hval _ _ Hm) as [Hpm Hbm].
    assert (r_file_path x ∈ seen.*1) as Hkey.
    { by apply (list_elem_of_fmap_2 fst) in Hm. }
    destruct (Z.ltb_spec (r_similarity m) (r_similarity x)) as [Hlt|Hge].
    + split_and!.
      * by rewrite dict_set_keys.
      * intros k r Hin.
        apply elem_of_dict_set in Hin as [[-> ->]|[Hin Hne]]; [| |done].
        -- split; [done|]. exists pool, []. split_and!; [done| |constructor].
           apply Forall_forall. intros r' Hin Hp.
           assert (r_similarity r' ≤ r_similarity m); [|lia].
           apply (best_for_path_max pool); [done..|congruence].
        -- destruct (Hval _ _ Hin) as [Hk Hb]. split; [done|].
           apply best_for_path_snoc; [done|]. congruence.
      * rewrite dict_set_keys by done.
        intros y [Hy| ->%list_elem_of_singleton]%elem_of_app; auto.
    + split_and!; [done| |].
      * intros k r Hin. destruct (Hval _ _ Hin) as [Hk Hb]. split; [done|].
        apply best_for_path_snoc; [done|]. intros Hp.
        assert (r = m) as ->; [|lia].
        apply (dict_binding_unique seen k); [done..|]. by rewrite <-Hk, <-Hp.
      * intros y [Hy| ->%list_elem_of_singleton]%elem_of_app; auto.
  - rewrite dict_set_new by done. apply dict_get_None in Hget.
    split_and!.
    + rewrite fmap_app. apply NoDup_app. split_and!; [done| |apply NoDup_singleton].
      intros k Hk ->%list_elem_of_singleton. done.
    + intros k r [Hin|[= -> ->]%list_elem_of_singleton]%elem_of_app.
      * destruct (Hval _ _ Hin) as [Hk Hb]. split; [done|].
        apply best_for_path_snoc; [done|]. intros Hp. destruct Hget.
        rewrite Hp, Hk. by apply (list_elem_of_fmap_2 fst) in Hin.
      * split; [done|]. exists pool, []. split_and!; [done| |constructor].
        apply Forall_forall. intros r' Hin Hp. destruct Hget.
        rewrite <-Hp. by apply Hcov.
    + rewrite fmap_app.
      intros y [Hy| ->%list_elem_of_singleton]%elem_of_app.
      * apply elem_of_app. left. by apply Hcov.
      * apply elem_of_app. right. by left.
Qed.

Lemma foldl_seen_step_inv rest : ∀ pool seen,
  seen_inv pool seen → seen_inv (pool ++ rest) (foldl seen_step seen rest).
Proof.
  induction rest as [|x rest IH]; intros pool seen Hinv; simpl.
  - by rewrite app_nil_r.
  - rewrite (cons_middle x pool rest), app_assoc. apply IH.
    by apply seen_step_inv.
Qed.

Lemma deduplicate_results_inv pool :
  seen_inv pool (foldl seen_step [] pool).
Proof.
  apply (foldl_seen_step_inv pool [] []).
  split_and!; [constructor|by intros ?? ?%elem_of_nil|by intros ? ?%elem_of_nil].
Qed.

Lemma seen_inv_paths pool seen :
  seen_inv pool seen → r_file_path <$> dict_values seen = seen.*1.
Proof.
  intros (_ & Hval & _). unfold dict_values.
  induction seen as [|[k r] seen IH]; [done|]. simpl.
  destruct (Hval k r) as [-> _]; [by left|].
  f_equal. apply IH. intros k' r' Hin. apply Hval. by right.
Qed.

(** No path occurs twice in the deduplicated list. *)
Lemma deduplicate_results_NoDup pool :
  NoDup (r_file_path <$> deduplicate_results pool).
Proof.
  unfold deduplicate_results.
  rewrite (seen_inv_paths pool) by apply deduplicate_results_inv.
  apply deduplicate_results_inv.
Qed.

(** Every entry of the deduplicated list is the best result of its path. *)
Lemma deduplicate_results_best pool r :
  r ∈ deduplicate_results pool → best_for_path pool r.
Proof.
  unfold deduplicate_results, dict_values.
  intros ([k r'] & -> & Hin)%list_elem_of_fmap.
  by apply (deduplicate_results_inv pool) in Hin as [_ ?].
Qed.

(** Every path of the pool has an entry in the deduplicated list. *)
Lemma deduplicate_results_covers pool x :
  x ∈ pool → ∃ r, r ∈ deduplicate_results pool ∧ r_file_path r = r_file_path x.
Proof.
  intros Hx. destruct (deduplicate_results_inv pool) as (_ & Hval & Hcov).
  apply Hcov in Hx. apply list_elem_of_fmap in Hx as ([k r] & Hk & Hin).
  simpl in Hk. subst k. exists r. split.
  - unfold deduplicate_results, dict_values.
    by apply (list_elem_of_fmap_2 snd) in Hin.
  - by apply Hval in Hin as [? _].
Qed.

(** On a list sorted by decreasing similarity no entry is ever replaced:
    the deduplicated list is a sublist of its input. *)
Lemma foldl_seen_step_sublist rest : ∀ seen,
  StronglySorted by_similarity (dict_values seen ++ rest) →
  dict_values (foldl seen_step seen rest) `sublist_of` dict_values seen ++ rest.
Proof.
  unfold dict_values.
  induction rest as [|x rest IH]; intros seen Hs; simpl.
  - by rewrite app_nil_r.
  - unfold seen_step at 2.
    destruct (dict_get (r_file_path x) seen) as [m|] eqn:Hget.
    + apply dict_get_Some, (list_elem_of_fmap_2 snd) in Hget. simpl in Hget.
      assert (by_similarity m x) as Hmx.
      { eapply StronglySorted_app_1_elem_of; [exact Hs|done|by left]. }
      unfold by_similarity in Hmx.
      destruct (Z.ltb_spec (r_similarity m) (r_similarity x)); [lia|].
      etrans; [apply IH|].
      * eapply StronglySorted_sublist; [|exact Hs].
        apply sublist_app; [done|]. by apply sublist_cons.
      * apply sublist_app; [done|]. by apply sublist_cons.
    + rewrite dict_set_new by done.
      specialize (IH (seen ++ [(r_file_path x, x)])).
      rewrite fmap_app, <-app_assoc in IH. simpl in IH. by apply IH.
Qed.

Lemma deduplicate_results_sorted l :
  StronglySorted by_similarity l →
  deduplicate_results l `sublist_of` l ∧
  StronglySorted by_similarity (deduplicate_results l).
Proof.
  intros Hs.
  assert (deduplicate_results l `sublist_of` l) as Hsub.
  { by apply (foldl_seen_step_sublist l []). }
  split; [done|]. by eapply StronglySorted_sublist.
Qed.

(** ** [search] *)

Lemma py_prefix_sublist {A} (l : list A) n : py_prefix l n `sublist_of` l.
Proof. apply sublist_take. Qed.

Lemma py_prefix_prefix {A} (l : list A) n : py_prefix l n `prefix_of` l.
Proof. apply prefix_take. Qed.

Lemma py_prefix_nonneg {A} (l : list A) n :
  0 ≤ n → py_prefix l n = take (Z.to_nat n) l.
Proof.
  intros Hn. unfold py_prefix, py_index.
  destruct (Z.ltb_spec n 0); [lia|].
  destruct (decide (n ≤ Z.of_nat (length l))).
  - by rewrite Z.min_l by done.
  - rewrite Z.min_r, Nat2Z.id by lia.
    rewrite !take_ge; [done|lia..].
Qed.

Lemma py_prefix_length {A} (l : list A) n :
  0 ≤ n → Z.of_nat (length (py_prefix l n)) ≤ n.
Proof.
  intros Hn. rewrite py_prefix_nonneg, length_take by done. lia.
Qed.

(** What [rank] returns, for every pool. *)
Lemma rank_properties (pool : list query_result) (n : Z) :
  NoDup (r_file_path <$> rank pool n) ∧
  (∀ r, r ∈ rank pool n → best_for_path pool r) ∧
  StronglySorted by_similarity (rank pool n) ∧
  (0 ≤ n → Z.of_nat (length (rank pool n)) ≤ n) ∧
  ∃ rest,
    deduplicate_results (sort_results_by_similarity pool) = rank pool n ++ rest ∧
    ∀ x, x ∈ pool → r_file_path x ∈ r_file_path <$> (rank pool n ++ rest).
Proof.
  unfold rank.
  set (S := sort_results_by_similarity pool).
  set (D := deduplicate_results S).
  destruct (deduplicate_results_sorted S) as [Hsub Hsorted].
  { apply sort_results_by_similarity_sorted. }
  split_and!.
  - eapply sublist_NoDup; [apply deduplicate_results_NoDup|].
    apply fmap_sublist, py_prefix_sublist.
  - intros r Hr. apply best_for_path_sorted, deduplicate_results_best.
    eapply elem_of_sublist; [exact Hr|apply py_prefix_sublist].
  - eapply StronglySorted_sublist; [apply py_prefix_sublist|done].
  - apply py_prefix_length.
  - destruct (py_prefix_prefix D n) as [rest Hrest]. exists rest.
    split; [done|]. rewrite <-Hrest. intros x Hx.
    destruct (deduplicate_results_covers S x) as (r & Hr & <-).
    { unfold S. by rewrite sort_results_by_similarity_perm. }
    by apply list_elem_of_fmap_2.
Qed.

(** A result that is the best of its path in the pool is among the
    deduplicated results of the sorted pool. *)
Lemma best_for_path_deduplicated pool r :
  best_for_path pool r →
  r ∈ deduplicate_results (sort_results_by_similarity pool).
Proof.
  intros Hr.
  destruct (deduplicate_results_covers (sort_results_by_similarity pool) r)
    as (r' & Hr' & Hpath).
  { rewrite sort_results_by_similarity_perm. by apply best_for_path_elem_of. }
  assert (r' = r) as <-; [|done].
  eapply best_for_path_unique; [|exact Hr|done].
  by apply best_for_path_sorted, deduplicate_results_best.
Qed.

(** The deduplicated results are as many as the pool has paths. *)
Lemma deduplicate_results_count pool :
  length (deduplicate_results (sort_results_by_similarity pool))
  = length (paths_of pool).
Proof.
  rewrite <-(length_fmap r_file_path). apply Permutation_length.
  apply NoDup_Permutation.
  - apply deduplicate_results_NoDup.
  - apply NoDup_remove_dups.
  - intros path. unfold paths_of. rewrite elem_of_remove_dups, !list_elem_of_fmap.
    split.
    + intros (r & -> & Hr). exists r. split; [done|].
      apply deduplicate_results_best, best_for_path_elem_of in Hr.
      by rewrite sort_results_by_similarity_perm in Hr.
    + intros (x & -> & Hx).
      destruct (deduplicate_results_covers (sort_results_by_similarity pool) x)
        as (r & Hr & Hpath); [by rewrite sort_results_by_similarity_perm|].
      by exists r.
Qed.

(** C2: for every pool of results and every [n >= 0], the list [search]
    returns for it, [rank pool n], holds no path twice; each of its entries
    is the result of highest similarity of the pool for its path, the first
    one in the pool among those of that similarity; it is sorted by
    non-increasing similarity; and its length is the smaller of [n] and the
    number of distinct paths of the pool, so that it has at most [n] entries
    and is not shorter than it has to be. When the pool has at most [n]
    paths, each of them occurs in the list; when it has more, the best
    result of a path that is left out is at most as similar as every entry
    of the list. Before the truncation every path of the pool is
    represented. [search] returns [rank] of the pool it gathered from the
    queries. *)
Theorem search_rank_properties (pool : list query_result) (n : Z) :
  0 ≤ n →
  NoDup (r_file_path <$> rank pool n) ∧
  (∀ r, r ∈ rank pool n → best_for_path pool r) ∧
  StronglySorted by_similarity (rank pool n) ∧
  Z.of_nat (length (rank pool n)) = Z.min n (Z.of_nat (length (paths_of pool))) ∧
  (Z.of_nat (length (paths_of pool)) ≤ n →
   ∀ x, x ∈ pool → ∃ r, r ∈ rank pool n ∧ r_file_path r = r_file_path x) ∧
  (∀ r, best_for_path pool r → r ∉ rank pool n →
     Z.of_nat (length (rank pool n)) = n ∧
     ∀ r', r' ∈ rank pool n → r_similarity r ≤ r_similarity r') ∧
  (∃ rest,
    deduplicate_results (sort_results_by_similarity pool) = rank pool n ++ rest ∧
    ∀ x, x ∈ pool → r_file_path x ∈ r_file_path <$> (rank pool n ++ rest)) ∧
  (∀ `{Library} `{!Chroma} (q : query_arg),
     search q n = (all_results <- search_loop (queries_of q) n [] ;;
                   ret (rank all_results n))).
Proof.
  intros Hn.
  destruct (rank_properties pool n) as (Hnd & Hbest & Hsorted & _ & Hcov).
  pose proof (deduplicate_results_count pool) as Hcount.
  pose proof (deduplicate_results_sorted (sort_results_by_similarity pool)
                (sort_results_by_similarity_sorted pool)) as [_ HD].
  assert (rank pool n
          = take (Z.to_nat n) (deduplicate_results (sort_results_by_similarity pool)))
    as Hrank by (unfold rank; by rewrite py_prefix_nonneg).
  assert (Z.of_nat (length (rank pool n))
          = Z.min n (Z.of_nat (length (paths_of pool)))) as Hlen.
  { rewrite Hrank, length_take, Hcount. lia. }
  split_and!; [done..| | |done|done].
  - intros Hall x Hx.
    destruct (deduplicate_results_covers (sort_results_by_similarity pool) x)
      as (r & Hr & Hpath); [by rewrite sort_results_by_similarity_perm|].
    exists r. split; [|done]. rewrite Hrank, take_ge; [done|lia].
  - intros r Hr Hout. apply best_for_path_deduplicated in Hr.
    destruct Hcov as (rest & HDeq & _). rewrite HDeq in Hr, HD.
    apply elem_of_app in Hr as [Hr|Hr]; [done|].
    split.
    + assert (length (rank pool n) < length (paths_of pool))%nat; [|lia].
      rewrite <-Hcount, HDeq, length_app.
      destruct rest; [by apply elem_of_nil in Hr|simpl; lia].
    + intros r' Hr'. by apply (StronglySorted_app_1_elem_of _ _ _ r' r HD).
Qed.

Lemma search_rank_properties_witness :
  rank [test_result "file1.cs" 90 0; test_result "file1.cs" 95 1;
        test_result "file2.sql" 80 0] 1
  = [test_result "file1.cs" 95 1] ∧
  Z.of_nat (length (rank [test_result "file1.cs" 90 0; test_result "file1.cs" 95 1;
                          test_result "file2.sql" 80 0] 1))
  = Z.min 1 (Z.of_nat (length (paths_of [test_result "file1.cs" 90 0;
                                         test_result "file1.cs" 95 1;
                                         test_result "file2.sql" 80 0]))) ∧
  ∀ x, x ∈ [test_result "file1.cs" 90 0; test_result "file1.cs" 95 1;
            test_result "file2.sql" 80 0] →
       ∃ r, r ∈ rank [test_result "file1.cs" 90 0; test_result "file1.cs" 95 1;
                      test_result "file2.sql" 80 0] 10 ∧
            r_file_path r = r_file_path x.
Proof.
  split; [vm_compute; reflexivity|]. split.
  - apply (search_rank_properties
             [test_result "file1.cs" 90 0; test_result "file1.cs" 95 1;
              test_result "file2.sql" 80 0] 1).
    lia.
  - apply (search_rank_properties
             [test_result "file1.cs" 90 0; test_result "file1.cs" 95 1;
              test_result "file2.sql" 80 0] 10); [lia|].
    vm_compute. discriminate.
Defined.

(** The two orders of operations agree up to the order of the entries. *)
Lemma deduplicate_sort_perm pool :
  deduplicate_results (sort_results_by_similarity pool)
  ≡ₚ sort_results_by_similarity (deduplicate_results pool).
Proof.
  etrans; [|symmetry; apply sort_results_by_similarity_perm].
  apply NoDup_Permutation.
  - eapply NoDup_fmap_1, deduplicate_results_NoDup.
  - eapply NoDup_fmap_1, deduplicate_results_NoDup.
  - intros r. split; intros Hr.
    + apply deduplicate_results_best, best_for_path_sorted in Hr.
      destruct (deduplicate_results_covers pool r) as (r' & Hr' & Hp).
      { by apply best_for_path_elem_of. }
      apply deduplicate_results_best in Hr' as Hb'.
      by rewrite (best_for_path_unique pool r r').
    + apply deduplicate_results_best in Hr.
      destruct (deduplicate_results_covers (sort_results_by_similarity pool) r)
        as (r' & Hr' & Hp).
      { rewrite sort_results_by_similarity_perm. by apply best_for_path_elem_of. }
      pose proof (deduplicate_results_best _ _ Hr') as Hb'.
      apply best_for_path_sorted in Hb'.
      by rewrite (best_for_path_unique pool r r').
Qed.

(** C3, as the code has it: when no two entries of the deduplicated pool
    have the same similarity, sorting the pool and then deduplicating it
    gives the same list as deduplicating it and then sorting it, and so does
    every truncation. *)
Theorem rank_agrees_with_spec_without_ties (pool : list query_result) (n : Z) :
  (∀ r1 r2, r1 ∈ deduplicate_results pool → r2 ∈ deduplicate_results pool →
     r_similarity r1 = r_similarity r2 → r1 = r2) →
  rank pool n = spec_rank pool n.
Proof.
  intros Hties. unfold rank, spec_rank. f_equal.
  apply (StronglySorted_unique_strong by_similarity).
  - intros r1 r2 H1 H2 H12 H21. unfold by_similarity in *.
    apply Hties; [| |lia].
    + rewrite (deduplicate_sort_perm pool) in H1.
      by rewrite (sort_results_by_similarity_perm (deduplicate_results pool)) in H1.
    + by rewrite (sort_results_by_similarity_perm (deduplicate_results pool)) in H2.
  - apply deduplicate_results_sorted, sort_results_by_similarity_sorted.
  - apply sort_results_by_similarity_sorted.
  - apply deduplicate_sort_perm.
Qed.

Lemma rank_agrees_with_spec_without_ties_witness :
  rank [test_result "a.cs" 5 0; test_result "b.cs" 9 0; test_result "a.cs" 8 1] 10
  = spec_rank [test_result "a.cs" 5 0; test_result "b.cs" 9 0; test_result "a.cs" 8 1] 10.
Proof.
  apply rank_agrees_with_spec_without_ties.
  intros r1 r2 H1 H2. vm_compute in H1, H2.
  apply elem_of_cons in H1 as [->|H1]; [|apply list_elem_of_singleton in H1 as ->];
    (apply elem_of_cons in H2 as [->|H2]; [|apply list_elem_of_singleton in H2 as ->]);
    simpl; intros; (reflexivity || discriminate).
Defined.

(** C3 as stated fails: on the pool [a.cs@5, b.cs@9, a.cs@9] the code,
    which sorts first, returns [b.cs] before [a.cs], and the order of the
    design document, which deduplicates first, returns [a.cs] before
    [b.cs]; truncated to one entry, the two lists hold different files. *)
Lemma rank_differs_from_spec_on_ties :
  rank tied_pool 10 = [test_result "b.cs" 9 0; test_result "a.cs" 9 1] ∧
  spec_rank tied_pool 10 = [test_result "a.cs" 9 1; test_result "b.cs" 9 0] ∧
  rank tied_pool 10 ≠ spec_rank tied_pool 10 ∧
  rank tied_pool 1 ≠ spec_rank tied_pool 1.
Proof.
  split_and!; [vm_compute; reflexivity..| |]; vm_compute; discriminate.
Qed.

(** ** Calls in the monad *)

Lemma bind_Ok {S A B} (m : M S A) (k : A → M S B) s b s' :
  bind m k s = (Ok b, s') → ∃ a s1, m s = (Ok a, s1) ∧ k a s1 = (Ok b, s').
Proof.
  unfold bind. destruct (m s) as [[a| |] s1]; [|done..]. eauto.
Qed.

Section Calls.
Context `{lib : Library} `{chroma : !Chroma}.

(** A call on the embedder leaves the collection, the calls made to it and
    the warnings as they are. *)
Lemma on_embedder_frame {A} (m : M Embedder A) (s s' : VectorSearch) r :
  on_embedder m s = (r, s') →
  store s' = store s ∧ calls s' = calls s ∧ warnings s' = warnings s.
Proof.
  unfold on_embedder, zoom. destruct (m (embedder s)) as [r' e].
  by intros [= <- <-].
Qed.

(** [search] asks the collection once per query, for [n_results] hits. *)
Lemma search_loop_calls queries n_results : ∀ all_results s pool s',
  search_loop queries n_results all_results s = (Ok pool, s') →
  ∃ es, length es = length queries ∧
        calls s' = calls s ++ ((λ e, CallQuery e n_results) <$> es) ∧
        warnings s' = warnings s.
Proof.
  induction queries as [|q queries IH]; intros all_results s pool s'; simpl.
  - intros [= <- <-]. exists []. by rewrite app_nil_r.
  - intros (e & s1 & He & Hk)%bind_Ok.
    apply bind_Ok in Hk as (hits & s2 & Hq & Hk).
    apply on_embedder_frame in He as (_ & Hc1 & Hw1).
    unfold query in Hq. injection Hq as _ <-.
    apply IH in Hk as (es & Hlen & Hc & Hw).
    exists (tolist e :: es). split_and!.
    + simpl. by rewrite Hlen.
    + rewrite Hc. simpl. rewrite Hc1, <-app_assoc. done.
    + by rewrite Hw.
Qed.

End Calls.

(** ** [search_with_filters] *)

Section Filters.
Context `{lib : Library} `{chroma : !Chroma}.

(** C7, as the code has it: [search_with_filters] makes one call of
    [search], for [n_results * 2] results, so that the collection is asked
    once per query for [n_results * 2] hits and never again; it returns the
    first [n_results] of the results of that call that pass the filters, in
    their order: each has a similarity of at least the threshold and, when a
    non-empty type set is given, a file type in the set; when fewer than
    [n_results] pass, all of them are returned. An absent or empty type set
    filters nothing. *)
Theorem search_with_filters_properties (q : query_arg)
    (file_types : option (list string)) (threshold n : Z)
    (s s' : VectorSearch) (out : list query_result) :
  0 ≤ n →
  search_with_filters q file_types threshold n s = (Ok out, s') →
  ∃ raw es,
    search q (n * 2) s = (Ok raw, s') ∧
    length es = length (queries_of q) ∧
    calls s' = calls s ++ ((λ e, CallQuery e (n * 2)) <$> es) ∧
    out `sublist_of` raw ∧
    (∀ r, r ∈ out → passes_filters file_types threshold r) ∧
    Z.of_nat (length out) ≤ n ∧
    out = take (Z.to_nat n) (filter (passes_filters file_types threshold) raw) ∧
    (Z.of_nat (length (filter (passes_filters file_types threshold) raw)) < n →
       out = filter (passes_filters file_types threshold) raw).
Proof.
  intros Hn (raw & s1 & Hsearch & Hret)%bind_Ok.
  injection Hret as <- <-.
  pose proof Hsearch as (pool & s2 & Hloop & Hrank)%bind_Ok.
  injection Hrank as _ <-.
  apply search_loop_calls in Hloop as (es & Hlen & Hcalls & _).
  set (survivors := filter (passes_filters file_types threshold) raw).
  assert (filter_results_by_threshold
            match file_types with
            | Some ((_ :: _) as types) => filter (λ r, r_file_type r ∈ types) raw
            | _ => raw
            end threshold = survivors) as ->.
  { unfold filter_results_by_threshold, survivors, passes_filters.
    destruct file_types as [[|t types]|].
    - apply list_filter_iff. intros r. tauto.
    - rewrite list_filter_filter. apply list_filter_iff. intros r. tauto.
    - apply list_filter_iff. intros r. tauto. }
  exists raw, es. split_and!; try done.
  - etrans; [apply py_prefix_sublist|apply sublist_filter].
  - intros r Hr.
    assert (r ∈ survivors) as Hin.
    { eapply elem_of_sublist; [exact Hr|apply py_prefix_sublist]. }
    by apply list_elem_of_filter in Hin as [? _].
  - by apply py_prefix_length.
  - by apply py_prefix_nonneg.
  - intros Hfew. rewrite py_prefix_nonneg by done. apply take_ge. lia.
Qed.

End Filters.

Lemma search_with_filters_properties_witness :
  let s := test_search [test_hit "file1.cs" ".cs" 5; test_hit "file2.sql" ".sql" 20] false in
  ∃ raw (es : list (@floats test_library)),
    @search test_library test_chroma (QueryList ["q1"; "q2"]) (1 * 2) s
      = (Ok raw, (@search_with_filters test_library test_chroma
                    (QueryList ["q1"; "q2"]) (Some [".cs"]) 85 1 s).2) ∧
    length es = 2%nat.
Proof.
  intros s.
  destruct (@search_with_filters_properties test_library test_chroma
              (QueryList ["q1"; "q2"]) (Some [".cs"]) 85 1 s
              (@search_with_filters test_library test_chroma
                 (QueryList ["q1"; "q2"]) (Some [".cs"]) 85 1 s).2
              [{| r_file_path := "file1.cs"; r_content := "text"; r_similarity := 95;
                  r_file_type := ".cs"; r_chunk_index := 0; r_query := "q1" |}])
    as (raw & es & Hsearch & Hlen & _).
  - lia.
  - vm_compute. reflexivity.
  - exists raw, es. split; [exact Hsearch|exact Hlen].
Defined.

(** C7 as stated fails when the type set given is empty: no file type is a
    member of the empty set, yet the result is returned. *)
Lemma search_with_filters_empty_type_set :
  let s := test_search [test_hit "file1.cs" ".cs" 5] false in
  (@search_with_filters test_library test_chroma (QueryStr "q") (Some []) 0 1 s).1
  = Ok [{| r_file_path := "file1.cs"; r_content := "text"; r_similarity := 95;
           r_file_type := ".cs"; r_chunk_index := 0; r_query := "q" |}] ∧
  ".cs" ∉ ([] : list string).
Proof.
  split; [vm_compute; reflexivity|apply not_elem_of_nil].
Qed.

(** ** Batches *)

Section BatchFacts.
Context `{lib : Library}.
Implicit Types (b : batch) (g : list batch).




Lemma batch_size_app b1 b2 :
  batch_size (batch_app b1 b2) = batch_size b1 + batch_size b2.
Proof. unfold batch_size. simpl. rewrite length_app. lia. Qed.





Lemma append_records_metadata (P : metadata → Prop) doc pairs : ∀ i b,
  (∀ i, P (metadata_of doc i)) →
  Forall P (all_metadatas b) →
  Forall P (all_metadatas (append_records doc i pairs b)).
Proof.
  induction pairs as [|[chunk e] pairs IH]; intros i b HP Hb; simpl; [done|].
  apply IH; [done|]. simpl. apply Forall_app. split; [done|].
  constructor; [apply HP|constructor].
Qed.


End BatchFacts.

(** ** The embedder inside [add_documents] *)

Section EmbedderCalls.
Context `{lib : Library}.

Lemma get_embedding_config text (e e' : Embedder) r :
  get_embedding text e = (r, e') → config e' = config e.
Proof.
  unfold get_embedding, bind, _get_cached_embedding.
  destruct (head _) as [row|].
  - by intros [= _ <-].
  - unfold generate_embedding, bind, _load_model, model_encode_call. simpl.
    destruct (model_encode _ _); simpl; by intros [= _ <-].
Qed.

Lemma embed_chunks_Ok chunks : ∀ acc (e e' : Embedder) embeddings,
  embed_chunks chunks acc e = (Ok embeddings, e') →
  length embeddings = (length acc + length chunks)%nat ∧ config e' = config e.
Proof.
  induction chunks as [|chunk chunks IH]; intros acc e e' embeddings; simpl.
  - intros [= <- <-]. split; [lia|done].
  - intros (v & e1 & Hv & Hk)%bind_Ok.
    apply get_embedding_config in Hv. apply IH in Hk as [Hlen Hcfg].
    rewrite length_app in Hlen. simpl in Hlen. split; [lia|congruence].
Qed.

Lemma chunk_text_Ok fuel text (e e' : Embedder) chunks :
  chunk_text fuel text e = (Ok chunks, e') →
  chunk_text_pure fuel (config e) text = Some chunks ∧ e' = e.
Proof.
  unfold chunk_text. destruct (chunk_text_pure _ _ _); [|done].
  by intros [= <- <-].
Qed.

Lemma get_embeddings_for_chunks_Ok fuel text (e e' : Embedder) embeddings :
  get_embeddings_for_chunks fuel text e = (Ok embeddings, e') →
  ∃ chunks, chunk_text_pure fuel (config e) text = Some chunks ∧
            length embeddings = length chunks ∧ config e' = config e.
Proof.
  intros (chunks & e1 & [Hchunks ->]%chunk_text_Ok & Hk)%bind_Ok.
  apply embed_chunks_Ok in Hk as [Hlen Hcfg]. eauto.
Qed.


End EmbedderCalls.

(** ** [add_documents] *)

Section AddDocuments.
Context `{lib : Library} `{chroma : !Chroma}.

Lemma on_embedder_inv {A} (m : M Embedder A) (s s' : VectorSearch) r :
  on_embedder m s = (r, s') →
  ∃ e', m (embedder s) = (r, e') ∧ embedder s' = e' ∧
        store s' = store s ∧ calls s' = calls s ∧ warnings s' = warnings s.
Proof.
  unfold on_embedder, zoom. destruct (m (embedder s)) as [r' e].
  intros [= <- <-]. eauto 10.
Qed.

Lemma add_inv b (s s' : VectorSearch) r :
  add b s = (r, s') →
  calls s' = calls s ++ [CallAdd b] ∧ warnings s' = warnings s ∧
  embedder s' = embedder s.
Proof.
  unfold add. simpl. destruct (collection_add _ _); by intros [= _ <-].
Qed.



End AddDocuments.

(** The threshold is tested once per document: a document of 150 chunks is
    sent in one call of 150 records. *)
Example add_documents_large_document :
  let s := test_indexer {| chunk_size := 1; chunk_overlap := 0 |} false in
  ∃ b, @calls test_library test_chroma
         (@add_documents test_library test_chroma 200
            [test_document "a.cs" (text_of_length 150)] s).2 = [CallAdd b] ∧
       length (@all_ids test_library b) = 150%nat.
Proof.
  intros s. eexists. split; [vm_compute; reflexivity|reflexivity].
Qed.

(** ** [update_document] *)

Section UpdateDocument.
Context `{lib : Library} `{chroma : !Chroma}.

(** Whatever happens, the [add] calls of the loop carry only metadata built
    from the documents. *)
Lemma add_documents_loop_metadata (P : metadata → Prop) fuel documents :
  Forall (λ doc, ∀ i, P (metadata_of doc i)) documents →
  ∀ b (s s' : VectorSearch) r,
    Forall P (all_metadatas b) →
    add_documents_loop fuel documents b s = (r, s') →
    ∃ batches,
      calls s' = calls s ++ (CallAdd <$> batches) ∧
      Forall (λ x, Forall P (all_metadatas x)) batches ∧
      (∀ b', r = Ok b' → Forall P (all_metadatas b')).
Proof.
  induction 1 as [|doc documents Hdoc _ IH]; intros b s s' r Hb; simpl.
  { intros [= <- <-]. exists []. rewrite app_nil_r.
    split_and!; [done|constructor|by intros ? [= <-]]. }
  unfold bind at 1.
  destruct (on_embedder (get_embeddings_for_chunks fuel (doc_content doc)) s)
    as [[embeddings| |] s1] eqn:H1;
    apply on_embedder_inv in H1 as (_ & _ & _ & _ & Hc1 & _);
    [|intros [= <- <-]; exists []; rewrite app_nil_r;
      split_and!; [done|constructor|done]..].
  unfold bind at 1.
  destruct (on_embedder (chunk_text fuel (doc_content doc)) s1)
    as [[chunks| |] s2] eqn:H2;
    apply on_embedder_inv in H2 as (_ & _ & _ & _ & Hc2 & _);
    [|intros [= <- <-]; exists []; rewrite app_nil_r;
      split_and!; [congruence|constructor|done]..].
  set (b1 := append_records doc 0 (zip chunks embeddings) b).
  assert (Forall P (all_metadatas b1)) as Hb1.
  { by apply append_records_metadata. }
  destruct (100 <=? _).
  - unfold bind at 1.
    destruct (add b1 s2) as [[[]| |] s3] eqn:H3;
      apply add_inv in H3 as (Hc3 & _ & _).
    + intros (batches & Hc & Hbs & Hr)%IH; [|constructor].
      exists (b1 :: batches). split_and!; [|by constructor|done].
      rewrite Hc, Hc3, Hc2, Hc1, <-app_assoc. done.
    + intros [= <- <-]. exists [b1]. split_and!; [simpl; congruence|by repeat constructor|done].
    + intros [= <- <-]. exists [b1]. split_and!; [simpl; congruence|by repeat constructor|done].
  - intros (batches & Hc & Hbs & Hr)%IH; [|done].
    exists batches. split_and!; [congruence|done..].
Qed.

Lemma add_documents_metadata (P : metadata → Prop) fuel documents
    (s s' : VectorSearch) r :
  Forall (λ doc, ∀ i, P (metadata_of doc i)) documents →
  add_documents fuel documents s = (r, s') →
  ∃ batches,
    calls s' = calls s ++ (CallAdd <$> batches) ∧
    Forall (λ x, Forall P (all_metadatas x)) batches.
Proof.
  intros Hdocs. unfold add_documents, bind.
  destruct (add_documents_loop fuel documents empty_batch s) as [r1 s1] eqn:Hloop.
  apply (add_documents_loop_metadata P) in Hloop
    as (batches & Hc & Hbs & Hr); [|done|constructor].
  destruct r1 as [b'| |]; [|intros [= <- <-]; eauto..].
  destruct (all_ids b') as [|id ids].
  - intros [= <- <-]. eauto.
  - intros (Hc' & _ & _)%add_inv. exists (batches ++ [b']). split.
    + rewrite Hc', Hc, fmap_app, <-app_assoc. done.
    + apply Forall_app. split; [done|]. constructor; [by apply Hr|constructor].
Qed.

(** The [try] statement of [update_document], case by case. *)
Lemma delete_existing_chunks_cases path (s : VectorSearch) :
  delete_existing_chunks path s =
  let s0 := record_call (CallGet path) s in
  match collection_get (store s) path with
  | Raise e => (Ok tt, warned (delete_warning path e) s0)
  | Pending => (Pending, s0)
  | Ok [] => (Ok tt, s0)
  | Ok ((_ :: _) as ids) =>
    let s1 := record_call (CallDelete ids) s0 in
    match collection_delete (store s) ids with
    | Ok c => (Ok tt, with_store c s1)
    | Raise e => (Ok tt, warned (delete_warning path e) s1)
    | Pending => (Pending, s1)
    end
  end.
Proof.
  unfold delete_existing_chunks, try_except, bind, get, delete. simpl.
  destruct (collection_get (store s) path) as [[|id ids]| |]; [done| |done..].
  simpl. destruct (collection_delete (store s) (id :: ids)); done.
Qed.


(** C10: in every call of [update_document], whatever its outcome, every
    [add] call carries only metadata with the path of the document, a
    [file_size] of 0 and an empty [last_modified]; the calls made before
    the [add] calls are the lookup and the deletion. *)
Theorem update_document_metadata_defaults fuel path content (s : VectorSearch) :
  ∃ pre batches,
    calls (update_document fuel path content s).2
      = calls s ++ pre ++ (CallAdd <$> batches) ∧
    Forall (λ c, ∀ b, c ≠ CallAdd b) pre ∧
    Forall (λ b, Forall (default_metadata path) (all_metadatas b)) batches.
Proof.
  assert (∃ pre, calls (delete_existing_chunks path s).2 = calls s ++ pre ∧
                 Forall (λ c, ∀ b, c ≠ CallAdd b) pre) as (pre & Hpre & Hnot).
  { rewrite delete_existing_chunks_cases. simpl.
    destruct (collection_get (store s) path) as [[|id ids]| |]; simpl;
      try (exists [CallGet path]; split; [done|by repeat constructor]).
    exists [CallGet path; CallDelete (id :: ids)].
    split; [|by repeat constructor].
    destruct (collection_delete (store s) (id :: ids)); simpl;
      by rewrite <-app_assoc. }
  unfold update_document, bind.
  destruct (delete_existing_chunks path s) as [[[]| |] s1]; simpl in *.
  - destruct (add_documents fuel [updated_document path content] s1)
      as [r s'] eqn:Hadd.
    apply (add_documents_metadata (default_metadata path)) in Hadd
      as (batches & Hc & Hbs).
    + exists pre, batches. simpl. by rewrite Hc, Hpre, <-app_assoc.
    + constructor; [|constructor]. intros i. done.
  - exists pre, []. by rewrite app_nil_r.
  - exists pre, []. by rewrite app_nil_r.
Qed.

End UpdateDocument.


(** A run of [update_document]: the lookup, no deletion as the collection
    holds nothing for the path, and one [add] call with the two records of
    the document, their [file_size] 0 and [last_modified] empty. *)
Example update_document_run :
  let s := test_indexer {| chunk_size := 3; chunk_overlap := 0 |} false in
  let vectors : list (list Z) := [[1; 2; 3]; [1; 2; 3]] in
  @calls test_library test_chroma
    (@update_document test_library test_chroma 10 "a.cs" "abcd" s).2
  = [CallGet "a.cs";
     CallAdd (@Build_batch test_library
                ["a.cs_0"; "a.cs_1"]
                vectors
                [{| file_path := "a.cs"; file_type := ".cs"; chunk_index := 0;
                    file_size := 0; last_modified := "" |};
                 {| file_path := "a.cs"; file_type := ".cs"; chunk_index := 1;
                    file_size := 0; last_modified := "" |}]
                ["abc"; "d"])].
Proof. vm_compute. reflexivity. Qed.

(** * Further properties of the code *)

(** ** Strings *)

Lemma string_app_cons (c : ascii) (s t : string) :
  String c s +:+ t = String c (s +:+ t).
Proof. reflexivity. Qed.

Lemma string_app_nil_r (s : string) : s +:+ "" = s.
Proof.
  induction s as [|c s IH]; [done|]. by rewrite string_app_cons, IH.
Qed.

Lemma string_app_assoc (s1 s2 s3 : string) :
  (s1 +:+ s2) +:+ s3 = s1 +:+ (s2 +:+ s3).
Proof.
  induction s1 as [|c s1 IH]; [done|]. by rewrite !string_app_cons, IH.
Qed.

Lemma substring_0_0 (s : string) : substring 0 0 s = "".
Proof. by destruct s. Qed.

Lemma substring_0_all (s : string) : substring 0 (String.length s) s = s.
Proof. induction s as [|c s IH]; [done|]. simpl. by rewrite IH. Qed.

Lemma substring_0_app : ∀ (a b : nat) (s : string),
  (a + b ≤ String.length s)%nat →
  substring 0 a s +:+ substring a b s = substring 0 (a + b) s.
Proof.
  induction a as [|a IH]; intros b s Hlen.
  - by rewrite substring_0_0.
  - destruct s as [|c s]; [simpl in Hlen; lia|].
    simpl in *. rewrite string_app_cons, IH by lia. done.
Qed.

Lemma length_substring : ∀ (a b : nat) (s : string),
  (a + b ≤ String.length s)%nat → String.length (substring a b s) = b.
Proof.
  induction a as [|a IH]; intros b s Hlen.
  - revert s Hlen. induction b as [|b IHb]; intros s Hlen; [by destruct s|].
    destruct s as [|c s]; [simpl in Hlen; lia|]. simpl in *.
    rewrite IHb by lia. done.
  - destruct s as [|c s]; [simpl in Hlen; lia|]. simpl in *. apply IH. lia.
Qed.

Lemma join_snoc (chunks : list string) (c : string) :
  join (chunks ++ [c]) = join chunks +:+ c.
Proof.
  unfold join. induction chunks as [|x chunks IH]; simpl.
  - by rewrite string_app_nil_r.
  - by rewrite IH, string_app_assoc.
Qed.

(** A slice with bounds inside the string. *)
Lemma py_slice_inner (s : string) (i j : Z) :
  0 ≤ i ≤ j → j ≤ len s →
  py_slice s i j = substring (Z.to_nat i) (Z.to_nat (j - i)) s.
Proof.
  intros Hij Hj. unfold py_slice, py_index.
  destruct (Z.ltb_spec i 0), (Z.ltb_spec j 0); try lia.
  by rewrite !Z.min_l by lia.
Qed.

(** ** When [chunk_text] returns *)

Section ChunkTermination.
Context (cfg : Config) (text : string).

(** With an overlap that is not positive and below the chunk size, every
    pass moves [start] forward, and the loop is left. *)
Lemma chunk_loop_progress fuel : ∀ start ws,
  chunk_overlap cfg ≤ 0 → chunk_overlap cfg < chunk_size cfg →
  start < len text → len text - start ≤ Z.of_nat fuel →
  ∃ ws', chunk_loop fuel cfg text start ws = Returned ws'.
Proof.
  induction fuel as [|fuel IH]; intros start ws Hov Hcs Hlt Hfuel; simpl; [lia|].
  destruct (Z.ltb_spec start (len text)); [|lia].
  destruct (Z.geb_spec (Z.min (start + chunk_size cfg) (len text) - chunk_overlap cfg)
                       (len text)); [by eexists|].
  apply IH; lia.
Qed.

(** With a chunk size that does not exceed the overlap, [start] never moves
    forward, and the loop is never left. *)
Lemma chunk_loop_stuck fuel : ∀ start ws,
  chunk_size cfg ≤ chunk_overlap cfg → start < len text →
  ∃ ws', chunk_loop fuel cfg text start ws = Running ws'.
Proof.
  induction fuel as [|fuel IH]; intros start ws Hcs Hlt; simpl; [by eexists|].
  destruct (Z.ltb_spec start (len text)); [|lia].
  destruct (Z.geb_spec (Z.min (start + chunk_size cfg) (len text) - chunk_overlap cfg)
                       (len text)); [lia|].
  apply IH; lia.
Qed.

(** Without overlap the chunks appended are the text up to [start], cut into
    non-empty pieces of at most [chunk_size] characters. *)
Lemma chunk_loop_partition fuel : ∀ start ws ws',
  chunk_overlap cfg = 0 → 0 < chunk_size cfg →
  0 ≤ start ≤ len text →
  join (w_chunk <$> ws) = substring 0 (Z.to_nat start) text →
  Forall (λ w, 0 < len (w_chunk w) ≤ chunk_size cfg) ws →
  chunk_loop fuel cfg text start ws = Returned ws' →
  join (w_chunk <$> ws') = text ∧
  Forall (λ w, 0 < len (w_chunk w) ≤ chunk_size cfg) ws'.
Proof.
  induction fuel as [|fuel IH]; intros start ws ws' Hov Hcs Hstart Hjoin Hall; simpl;
    [done|].
  destruct (Z.ltb_spec start (len text)) as [Hlt|Hge].
  - set (e := Z.min (start + chunk_size cfg) (len text)).
    assert (start < e ≤ len text) as He by (unfold e; lia).
    assert (py_slice text start e
            = substring (Z.to_nat start) (Z.to_nat (e - start)) text) as Hslice.
    { apply py_slice_inner; lia. }
    assert (join (w_chunk <$> ws ++ [{| w_start := start; w_end := e;
                                        w_chunk := py_slice text start e |}])
            = substring 0 (Z.to_nat e) text) as Hjoin'.
    { rewrite fmap_app, fmap_cons, fmap_nil, join_snoc, Hjoin. simpl. rewrite Hslice.
      rewrite substring_0_app by (unfold len in *; lia).
      f_equal. lia. }
    assert (Forall (λ w, 0 < len (w_chunk w) ≤ chunk_size cfg)
              (ws ++ [{| w_start := start; w_end := e;
                         w_chunk := py_slice text start e |}])) as Hall'.
    { apply Forall_app. split; [done|]. constructor; [|done]. simpl.
      rewrite Hslice. unfold len at 1 2.
      rewrite length_substring by (unfold len in *; lia).
      unfold e. lia. }
    destruct (Z.geb_spec (e - chunk_overlap cfg) (len text)) as [Hend|Hmore].
    + intros [= <-]. split; [|done].
      rewrite Hjoin'. replace (Z.to_nat e) with (String.length text)
        by (unfold len in *; lia).
      apply substring_0_all.
    + rewrite Hov, Z.sub_0_r in *. apply IH; [done..|lia| |done].
      by rewrite Hjoin'.
  - intros [= <-]. split; [|done].
    rewrite Hjoin. replace (Z.to_nat start) with (String.length text)
      by (unfold len in *; lia).
    apply substring_0_all.
Qed.

End ChunkTermination.

(** X1: on a non-empty text [chunk_text] returns exactly when the overlap is
    not positive and is below the chunk size; with a positive overlap, or a
    chunk size that does not exceed the overlap, the call never returns. *)
Theorem chunk_text_returns_iff cfg text :
  text ≠ "" →
  (∃ fuel chunks, chunk_text_pure fuel cfg text = Some chunks) ↔
  chunk_overlap cfg ≤ 0 ∧ chunk_overlap cfg < chunk_size cfg.
Proof.
  intros Hne. pose proof (len_pos _ Hne) as Hlen. split.
  - intros (fuel & chunks & Hret). unfold chunk_text_pure in Hret.
    rewrite chunk_text_run_nonempty in Hret by done.
    destruct (decide (0 < chunk_overlap cfg)) as [Hov|Hov].
    { destruct (chunk_loop_running cfg text fuel 0 [] Hov Hlen) as [ws Hrun].
      by rewrite Hrun in Hret. }
    destruct (decide (chunk_size cfg ≤ chunk_overlap cfg)) as [Hcs|Hcs].
    { destruct (chunk_loop_stuck cfg text fuel 0 [] Hcs Hlen) as [ws Hrun].
      by rewrite Hrun in Hret. }
    lia.
  - intros [Hov Hcs]. exists (String.length text). unfold chunk_text_pure.
    rewrite chunk_text_run_nonempty by done.
    destruct (chunk_loop_progress cfg text (String.length text) 0 [] Hov Hcs Hlen)
      as [ws ->]; [unfold len; lia|].
    by eexists.
Qed.

Lemma chunk_text_returns_iff_witness :
  (∃ fuel chunks,
     chunk_text_pure fuel {| chunk_size := 4; chunk_overlap := -1 |} "abcdefgh"
     = Some chunks) ∧
  ¬ (∃ fuel chunks,
     chunk_text_pure fuel {| chunk_size := 4; chunk_overlap := 4 |} "abcdefgh"
     = Some chunks).
Proof.
  split.
  - apply (chunk_text_returns_iff {| chunk_size := 4; chunk_overlap := -1 |} "abcdefgh");
      [done|simpl; lia].
  - intros Hret.
    apply (chunk_text_returns_iff {| chunk_size := 4; chunk_overlap := 4 |} "abcdefgh")
      in Hret; [simpl in Hret; lia|done].
Defined.

(** X2: without overlap and with a positive chunk size, [chunk_text]
    returns within [len(text)] passes, and whenever it returns, its chunks
    joined give the text back, and each chunk is non-empty and at most
    [chunk_size] characters long. *)
Theorem chunk_text_partitions_text cfg text :
  chunk_overlap cfg = 0 → 0 < chunk_size cfg →
  (∃ chunks, chunk_text_pure (S (String.length text)) cfg text = Some chunks) ∧
  (∀ fuel chunks, chunk_text_pure fuel cfg text = Some chunks →
     join chunks = text ∧ Forall (λ c, 0 < len c ≤ chunk_size cfg) chunks).
Proof.
  intros Hov Hcs. split.
  { by apply chunk_text_returns_without_overlap. }
  intros fuel chunks. unfold chunk_text_pure, chunk_text_run.
  destruct (String.eqb_spec text "") as [->|Hne].
  { intros [= <-]. done. }
  destruct (chunk_loop fuel cfg text 0 []) as [ws|ws] eqn:Hloop; [|done].
  intros [= <-].
  apply (chunk_loop_partition cfg text) in Hloop as [Hjoin Hall]; try done.
  - split; [done|]. by apply Forall_fmap.
  - pose proof (len_nonneg text). lia.
  - simpl. by rewrite substring_0_0.
Qed.

Lemma chunk_text_partitions_text_witness :
  ∃ chunks,
    chunk_text_pure 13 {| chunk_size := 5; chunk_overlap := 0 |} "hello world!"
    = Some chunks.
Proof.
  apply (chunk_text_partitions_text {| chunk_size := 5; chunk_overlap := 0 |}
           "hello world!"); [reflexivity|simpl; lia].
Defined.

(** ** [get_embedding] and the cache *)

Section EmbeddingCache.
Context `{lib : Library}.

Lemma rows_for_absent h table :
  rows_for h table = [] → filter (λ r, content_hash r ≠ h) table = table.
Proof.
  unfold rows_for. induction table as [|r table IH]; [done|].
  destruct (decide (content_hash r = h)).
  - by rewrite filter_cons_True by done.
  - rewrite filter_cons_False by done. intros Hnil.
    rewrite filter_cons_True by done. by rewrite IH.
Qed.

Lemma cached_None_rows (e : Embedder) h :
  cached e h = None → rows_for h (cache_db e) = [].
Proof. unfold cached. by destruct (rows_for h (cache_db e)). Qed.

Lemma get_embedding_cases (text : string) (e : Embedder) :
  (∀ v, cached e (get_content_hash text) = Some v →
        get_embedding text e = (Ok v, e)) ∧
  (cached e (get_content_hash text) = None →
   ∃ e', (get_embedding text e).2 = e' ∧
         encoded e' = encoded e ++ [text] ∧ model e' = true ∧
         match model_encode (encoded e) text with
         | Ok v => (get_embedding text e).1 = Ok v ∧
                   cached e' (get_content_hash text) = Some v ∧
                   length (cache_db e') = S (length (cache_db e))
         | Raise x => (get_embedding text e).1 = Raise x ∧
                      cache_db e' = cache_db e
         | Pending => (get_embedding text e).1 = Pending ∧
                      cache_db e' = cache_db e
         end).
Proof.
  unfold get_embedding, bind, _get_cached_embedding. split.
  - intros v Hhit. unfold cached, rows_for in Hhit.
    destruct (head _) as [r|]; [|done]. by injection Hhit as ->.
  - intros Hmiss. pose proof (cached_None_rows _ _ Hmiss) as Hrows.
    unfold cached, rows_for in Hmiss. destruct (head _) as [r|]; [done|].
    unfold generate_embedding, bind, _load_model, model_encode_call. simpl.
    destruct (model_encode (encoded e) text) as [v| |]; simpl;
      eexists; (split; [reflexivity|]); simpl; split_and!; try done.
    + unfold cached. simpl.
      change (get_content_hash text) with
        (content_hash {| content_hash := get_content_hash text;
                         embedding := pickle_dumps v; created_at := clock e |}) at 1.
      rewrite rows_for_insert_or_replace. simpl. by rewrite pickle_loads_dumps.
    + unfold insert_or_replace. simpl. rewrite rows_for_absent by done.
      rewrite length_app. simpl. lia.
Qed.


Lemma cached_insert_or_replace_ne (e : Embedder) row h :
  h ≠ content_hash row →
  head (rows_for h (insert_or_replace row (cache_db e)))
  = head (rows_for h (cache_db e)).
Proof. intros Hne. by rewrite rows_for_insert_or_replace_ne. Qed.

Lemma get_embedding_keeps (text : string) (e e' : Embedder) r :
  get_embedding text e = (r, e') →
  (NoDup (table_keys (cache_db e)) → NoDup (table_keys (cache_db e'))) ∧
  (∀ h v, cached e h = Some v → cached e' h = Some v) ∧
  encoded e `prefix_of` encoded e'.
Proof.
  destruct (get_embedding_cases text e) as [Hhit Hmiss].
  destruct (cached e (get_content_hash text)) as [v0|] eqn:Hc.
  - rewrite (Hhit v0 eq_refl). intros [= _ <-]. done.
  - clear Hhit Hmiss. unfold get_embedding, bind, _get_cached_embedding.
    pose proof Hc as Hc'. unfold cached, rows_for in Hc'.
    destruct (head _) as [row|]; [done|]. clear Hc'.
    unfold generate_embedding, bind, _load_model, model_encode_call. simpl.
    destruct (model_encode (encoded e) text) as [v| |]; simpl;
      intros [= _ <-]; simpl; split_and!; try done;
      try (by apply prefix_app_r).
    + apply insert_or_replace_NoDup.
    + intros h w Hw. unfold cached in *. simpl.
      rewrite rows_for_insert_or_replace_ne; [done|].
      simpl. intros ->. by rewrite Hc in Hw.
Qed.


Lemma get_embedding_Ok_cached (text : string) (e e' : Embedder) v :
  get_embedding text e = (Ok v, e') → cached e' (get_content_hash text) = Some v.
Proof.
  intros Hget. destruct (get_embedding_cases text e) as [Hhit Hmiss].
  destruct (cached e (get_content_hash text)) as [v0|] eqn:Hc.
  - rewrite (Hhit v0 eq_refl) in Hget. by injection Hget as <- <-.
  - destruct (Hmiss eq_refl) as (e1 & He1 & _ & _ & Hcase).
    rewrite Hget in He1, Hcase. simpl in *. subst e1.
    destruct (model_encode (encoded e) text); destruct Hcase as [Hr Hrest];
      [|done..].
    injection Hr as ->. by destruct Hrest.
Qed.

Lemma embed_chunks_cached chunks : ∀ acc (e e' : Embedder) embeddings,
  embed_chunks chunks acc e = (Ok embeddings, e') →
  ∃ vs, embeddings = acc ++ vs ∧
        Forall2 (λ c v, cached e' (get_content_hash c) = Some v) chunks vs ∧
        (∀ h v, cached e h = Some v → cached e' h = Some v).
Proof.
  induction chunks as [|chunk chunks IH]; intros acc e e' embeddings; simpl.
  - intros [= <- <-]. exists []. by rewrite app_nil_r.
  - intros (v & e1 & Hv & Hk)%bind_Ok.
    apply IH in Hk as (vs & -> & Hall & Hkeep).
    pose proof (get_embedding_Ok_cached _ _ _ _ Hv) as Hc.
    apply get_embedding_keeps in Hv as (_ & Hkeep1 & _).
    exists (v :: vs). split_and!.
    + by rewrite <-app_assoc.
    + constructor; [by apply Hkeep|done].
    + auto.
Qed.

Lemma embed_chunks_hits chunks : ∀ vs acc (e : Embedder),
  Forall2 (λ c v, cached e (get_content_hash c) = Some v) chunks vs →
  embed_chunks chunks acc e = (Ok (acc ++ vs), e).
Proof.
  induction chunks as [|chunk chunks IH]; intros vs acc e Hall.
  - apply Forall2_nil_inv_l in Hall as ->. simpl. by rewrite app_nil_r.
  - apply Forall2_cons_inv_l in Hall as (v & vs' & Hv & Hall & ->). simpl.
    unfold bind at 1.
    destruct (get_embedding_cases chunk e) as [Hhit _].
    rewrite (Hhit v Hv), (IH vs' (acc ++ [v]) e Hall), <-app_assoc. done.
Qed.

(** X5: when [get_embeddings_for_chunks] returns, it returns one vector per
    chunk of the text; a second call on the same text returns the same list
    and changes nothing: every chunk is answered from the cache. *)
Theorem get_embeddings_for_chunks_again fuel text (e e' : Embedder) embeddings :
  get_embeddings_for_chunks fuel text e = (Ok embeddings, e') →
  (∃ chunks, chunk_text_pure fuel (config e) text = Some chunks ∧
             length embeddings = length chunks) ∧
  get_embeddings_for_chunks fuel text e' = (Ok embeddings, e').
Proof.
  intros Hrun. split.
  { apply get_embeddings_for_chunks_Ok in Hrun as (chunks & ? & ? & _). eauto. }
  apply bind_Ok in Hrun as (chunks & e1 & [Hchunks ->]%chunk_text_Ok & Hk).
  pose proof (embed_chunks_Ok _ _ _ _ _ Hk) as [_ Hcfg].
  apply embed_chunks_cached in Hk as (vs & -> & Hall & _).
  unfold get_embeddings_for_chunks, bind, chunk_text at 1.
  rewrite Hcfg, Hchunks. by apply embed_chunks_hits.
Qed.


(** X3: [get_embedding] on a hit and on a miss. When the cache holds a
    vector for the hash of the text, also one stored for another text of the
    same hash, that vector is returned and nothing changes: the model is
    neither loaded nor called. Otherwise the model is called once, on this
    text; if it answers, the answer is returned and stored in one new row;
    if it raises, the exception is the outcome and the table is as it was. *)
Theorem get_embedding_hit_or_miss (text : string) (e : Embedder) :
  (∀ v, cached e (get_content_hash text) = Some v →
        get_embedding text e = (Ok v, e)) ∧
  (cached e (get_content_hash text) = None →
   ∃ e', (get_embedding text e).2 = e' ∧
         encoded e' = encoded e ++ [text] ∧ model e' = true ∧
         match model_encode (encoded e) text with
         | Ok v => (get_embedding text e).1 = Ok v ∧
                   cached e' (get_content_hash text) = Some v ∧
                   length (cache_db e') = S (length (cache_db e))
         | Raise x => (get_embedding text e).1 = Raise x ∧
                      cache_db e' = cache_db e
         | Pending => (get_embedding text e).1 = Pending ∧
                      cache_db e' = cache_db e
         end).
Proof. exact (get_embedding_cases text e). Qed.

(** X4: whatever its outcome, [get_embedding] keeps the cache: no two rows
    share a hash afterwards if none did before, every vector the cache held
    is still held for its hash, and the calls made to the model so far are
    still on record, in their order. *)
Theorem get_embedding_keeps_cache (text : string) (e e' : Embedder) r :
  get_embedding text e = (r, e') →
  (NoDup (table_keys (cache_db e)) → NoDup (table_keys (cache_db e'))) ∧
  (∀ h v, cached e h = Some v → cached e' h = Some v) ∧
  encoded e `prefix_of` encoded e'.
Proof. exact (get_embedding_keeps text e e' r). Qed.

End EmbeddingCache.

Lemma get_embedding_hit_or_miss_witness :
  ∃ e', (@get_embedding test_library "q" (test_embedder test_config)).2 = e' ∧
        @encoded test_library e' = ["q"].
Proof.
  destruct (@get_embedding_hit_or_miss test_library "q" (test_embedder test_config))
    as [_ Hmiss].
  destruct (Hmiss eq_refl) as (e' & He' & Henc & _).
  exists e'. split; [exact He'|exact Henc].
Defined.

Lemma get_embedding_keeps_cache_witness :
  let e := (@get_embedding test_library "a" (test_embedder test_config)).2 in
  @cached test_library (@get_embedding test_library "b" e).2 "a" = Some [1; 2; 3].
Proof.
  intros e.
  destruct (@get_embedding_keeps_cache test_library "b" e
              (@get_embedding test_library "b" e).2
              (@get_embedding test_library "b" e).1) as (_ & Hkeep & _).
  - vm_compute. reflexivity.
  - apply Hkeep. vm_compute. reflexivity.
Defined.

Lemma get_embeddings_for_chunks_again_witness :
  let cfg := {| chunk_size := 3; chunk_overlap := 0 |} in
  let e' := (@get_embeddings_for_chunks test_library 10 "abcdefg"
               (test_embedder cfg)).2 in
  @get_embeddings_for_chunks test_library 10 "abcdefg" e'
  = (Ok [[1; 2; 3]; [1; 2; 3]; [1; 2; 3]], e').
Proof.
  intros cfg e'.
  apply (@get_embeddings_for_chunks_again test_library 10 "abcdefg"
           (test_embedder cfg) e' [[1; 2; 3]; [1; 2; 3]; [1; 2; 3]]).
  vm_compute. reflexivity.
Defined.

(** ** [deduplicate_results], [sort_results_by_similarity] and
    [filter_results_by_threshold] on their own *)

Lemma filter_all {A} (P : A → Prop) `{!∀ x, Decision (P x)} (l : list A) :
  Forall P l → filter P l = l.
Proof.
  induction 1 as [|x l Hx _ IH]; [done|].
  by rewrite filter_cons_True, IH by done.
Qed.

Lemma seen_step_keys seen x :
  (seen_step seen x).*1
  = if decide (r_file_path x ∈ seen.*1) then seen.*1
    else seen.*1 ++ [r_file_path x].
Proof.
  unfold seen_step.
  destruct (dict_get (r_file_path x) seen) as [m|] eqn:Hget.
  - apply dict_get_Some, (list_elem_of_fmap_2 fst) in Hget as Hin. simpl in Hin.
    rewrite decide_True by done.
    destruct (_ <? _); [by apply dict_set_keys|done].
  - rewrite dict_set_new by done. apply dict_get_None in Hget.
    rewrite decide_False by done. by rewrite fmap_app.
Qed.

Lemma filter_filter_ne (keys : list string) (k : string) (l : list string) :
  k ∈ keys →
  filter (λ k', k' ∉ keys) (filter (λ k', k' ≠ k) l) = filter (λ k', k' ∉ keys) l.
Proof.
  intros Hk. rewrite list_filter_filter. apply list_filter_iff.
  intros k'. split; [by intros [? _]|]. intros Hk'. split; [done|].
  intros ->. done.
Qed.

Lemma foldl_seen_step_keys l : ∀ seen,
  (foldl seen_step seen l).*1
  = seen.*1 ++ filter (λ k, k ∉ seen.*1) (first_occurrences (r_file_path <$> l)).
Proof.
  induction l as [|x l IH]; intros seen.
  - simpl. by rewrite app_nil_r.
  - rewrite fmap_cons. simpl. rewrite IH, seen_step_keys.
    destruct (decide (r_file_path x ∈ seen.*1)) as [Hin|Hnotin].
    + rewrite filter_cons_False by (intros ?; done).
      by rewrite filter_filter_ne.
    + rewrite filter_cons_True by done.
      rewrite <-app_assoc. simpl. do 2 f_equal.
      rewrite list_filter_filter. apply list_filter_iff.
      intros k. rewrite elem_of_app, list_elem_of_singleton. tauto.
Qed.

Lemma deduplicate_results_paths l :
  r_file_path <$> deduplicate_results l = first_occurrences (r_file_path <$> l).
Proof.
  unfold deduplicate_results.
  rewrite (seen_inv_paths l) by apply deduplicate_results_inv.
  rewrite foldl_seen_step_keys. simpl.
  apply filter_all. apply Forall_forall. intros k _. apply not_elem_of_nil.
Qed.

(** A list without two results of one path is left as it is. *)
Lemma foldl_seen_step_distinct l : ∀ seen,
  NoDup (r_file_path <$> l) →
  (∀ x, x ∈ l → r_file_path x ∉ seen.*1) →
  foldl seen_step seen l = seen ++ ((λ r, (r_file_path r, r)) <$> l).
Proof.
  induction l as [|x l IH]; intros seen Hnd Hfresh.
  - simpl. by rewrite app_nil_r.
  - rewrite fmap_cons in Hnd. apply NoDup_cons in Hnd as [Hx Hnd]. simpl.
    assert (seen_step seen x = seen ++ [(r_file_path x, x)]) as ->.
    { unfold seen_step.
      assert (dict_get (r_file_path x) seen = None) as Hget.
      { apply dict_get_None, Hfresh. by left. }
      rewrite Hget. by apply dict_set_new. }
    rewrite IH; [by rewrite <-app_assoc|done|].
    intros y Hy. rewrite fmap_app. simpl.
    rewrite elem_of_app, list_elem_of_singleton.
    intros [Hin| Heq].
    + by apply (Hfresh y); [right|].
    + apply Hx. rewrite <-Heq. by apply list_elem_of_fmap_2.
Qed.

Lemma deduplicate_results_distinct l :
  NoDup (r_file_path <$> l) → deduplicate_results l = l.
Proof.
  intros Hnd. unfold deduplicate_results, dict_values.
  rewrite foldl_seen_step_distinct; [|done|by intros ? _ ?%elem_of_nil].
  simpl. rewrite <-list_fmap_compose. by rewrite list_fmap_id.
Qed.

(** X6: [deduplicate_results] on any list, sorted or not. Its entries are
    exactly the best results of the paths of the list (highest similarity,
    the first one on a tie), one per path, in the order in which the paths
    first occur; deduplicating again changes nothing. *)
Theorem deduplicate_results_spec (l : list query_result) :
  r_file_path <$> deduplicate_results l = first_occurrences (r_file_path <$> l) ∧
  NoDup (r_file_path <$> deduplicate_results l) ∧
  (∀ r, r ∈ deduplicate_results l ↔ best_for_path l r) ∧
  deduplicate_results (deduplicate_results l) = deduplicate_results l.
Proof.
  split_and!.
  - apply deduplicate_results_paths.
  - apply deduplicate_results_NoDup.
  - intros r. split; [apply deduplicate_results_best|].
    intros Hbest.
    destruct (deduplicate_results_covers l r) as (r' & Hr' & Hp).
    { by apply best_for_path_elem_of. }
    pose proof (deduplicate_results_best _ _ Hr') as Hbest'.
    by rewrite (best_for_path_unique l r r').
  - apply deduplicate_results_distinct, deduplicate_results_NoDup.
Qed.

Lemma insert_by_similarity_head x l :
  Forall (by_similarity x) l → insert_by_similarity x l = x :: l.
Proof.
  destruct l as [|y l]; [done|]. intros [Hy _]%Forall_cons. simpl.
  unfold by_similarity in Hy.
  destruct (Z.ltb_spec (r_similarity x) (r_similarity y)); [lia|done].
Qed.

Lemma sort_results_by_similarity_sorted_id l :
  StronglySorted by_similarity l → sort_results_by_similarity l = l.
Proof.
  induction 1 as [|x l Hs IH Hx]; [done|].
  unfold sort_results_by_similarity in *. simpl. rewrite IH.
  by apply insert_by_similarity_head.
Qed.

(** X7: [sort_results_by_similarity] returns the results it was given, in
    non-increasing order of similarity, results of equal similarity in the
    order they had; a list already in that order is returned as it is, so
    that sorting twice is sorting once. *)
Theorem sort_results_by_similarity_spec (l : list query_result) :
  sort_results_by_similarity l ≡ₚ l ∧
  StronglySorted by_similarity (sort_results_by_similarity l) ∧
  (∀ k, filter (λ r, r_similarity r = k) (sort_results_by_similarity l)
        = filter (λ r, r_similarity r = k) l) ∧
  (StronglySorted by_similarity l → sort_results_by_similarity l = l) ∧
  sort_results_by_similarity (sort_results_by_similarity l)
  = sort_results_by_similarity l.
Proof.
  split_and!.
  - apply sort_results_by_similarity_perm.
  - apply sort_results_by_similarity_sorted.
  - intros k. apply sort_results_by_similarity_stable.
  - apply sort_results_by_similarity_sorted_id.
  - apply sort_results_by_similarity_sorted_id, sort_results_by_similarity_sorted.
Qed.

Lemma sort_results_by_similarity_spec_witness :
  sort_results_by_similarity [test_result "a.cs" 9 0; test_result "b.cs" 5 0]
  = [test_result "a.cs" 9 0; test_result "b.cs" 5 0].
Proof.
  destruct (sort_results_by_similarity_spec
              [test_result "a.cs" 9 0; test_result "b.cs" 5 0])
    as (_ & _ & _ & Hsorted & _).
  apply Hsorted.
  repeat constructor; unfold by_similarity; simpl; lia.
Defined.

(** X8: [filter_results_by_threshold] keeps exactly the results whose
    similarity reaches the threshold, in their order; filtering by two
    thresholds in turn is filtering by the greater one, so that filtering
    twice by one threshold is filtering once; and a list all of whose
    results reach the threshold is returned whole. *)
Theorem filter_results_by_threshold_spec (l : list query_result) (t t' : Z) :
  (∀ r, r ∈ filter_results_by_threshold l t ↔ r ∈ l ∧ t ≤ r_similarity r) ∧
  filter_results_by_threshold l t `sublist_of` l ∧
  filter_results_by_threshold (filter_results_by_threshold l t) t'
  = filter_results_by_threshold l (Z.max t t') ∧
  filter_results_by_threshold (filter_results_by_threshold l t) t
  = filter_results_by_threshold l t ∧
  (Forall (λ r, t ≤ r_similarity r) l → filter_results_by_threshold l t = l).
Proof.
  unfold filter_results_by_threshold. split_and!.
  - intros r. rewrite list_elem_of_filter. tauto.
  - apply sublist_filter.
  - rewrite list_filter_filter. apply list_filter_iff. intros r. lia.
  - rewrite list_filter_filter. apply list_filter_iff. intros r. lia.
  - apply filter_all.
Qed.

Lemma filter_results_by_threshold_spec_witness :
  filter_results_by_threshold [test_result "a.cs" 9 0; test_result "b.cs" 5 0] 5
  = [test_result "a.cs" 9 0; test_result "b.cs" 5 0].
Proof.
  destruct (filter_results_by_threshold_spec
              [test_result "a.cs" 9 0; test_result "b.cs" 5 0] 5 0)
    as (_ & _ & _ & _ & Hall).
  apply Hall.
  repeat constructor; simpl; lia.
Defined.

(** ** [search]: what it leaves alone *)

Section SearchReads.
Context `{lib : Library} `{chroma : !Chroma}.



End SearchReads.


(** ** [add_documents]: empty documents, the shape of the batches, and the
    overlap *)

Section AddDocumentsEdges.
Context `{lib : Library} `{chroma : !Chroma}.

Lemma on_embedder_same {A} (m : M Embedder A) (s : VectorSearch) r :
  m (embedder s) = (r, embedder s) → on_embedder m s = (r, s).
Proof. unfold on_embedder, zoom. intros ->. by destruct s. Qed.

Lemma chunk_text_empty fuel (e : Embedder) : chunk_text fuel "" e = (Ok [], e).
Proof. done. Qed.

Lemma get_embeddings_for_chunks_empty fuel (e : Embedder) :
  get_embeddings_for_chunks fuel "" e = (Ok [], e).
Proof. done. Qed.

(** A document without content leaves the buffer and the state as they
    are. *)
Lemma add_documents_loop_skip fuel doc documents b (s : VectorSearch) :
  doc_content doc = "" → batch_size b < 100 →
  add_documents_loop fuel (doc :: documents) b s
  = add_documents_loop fuel documents b s.
Proof.
  intros Hempty Hb. simpl. rewrite Hempty. unfold bind.
  rewrite (on_embedder_same _ s (Ok [])) by apply get_embeddings_for_chunks_empty.
  rewrite (on_embedder_same _ s (Ok [])) by apply chunk_text_empty.
  simpl. unfold batch_size in Hb.
  destruct (Z.leb_spec 100 (Z.of_nat (length (all_ids b)))); [lia|done].
Qed.



Lemma append_record_wf doc i chunk e b :
  batch_wf b → batch_wf (append_record doc i chunk e b).
Proof.
  intros (He & Hm & Hd & Hid). unfold batch_wf. simpl.
  rewrite !length_app. simpl. split_and!; [lia..|].
  apply Forall2_app; [done|]. by repeat constructor.
Qed.

Lemma append_records_wf doc pairs : ∀ i b,
  batch_wf b → batch_wf (append_records doc i pairs b).
Proof.
  induction pairs as [|[chunk e] pairs IH]; intros i b Hb; simpl; [done|].
  by apply IH, append_record_wf.
Qed.

(** Whatever happens, the loop sends well-formed batches of at least 100
    records. *)
Lemma add_documents_loop_sends fuel documents : ∀ b (s s' : VectorSearch) r,
  batch_wf b →
  add_documents_loop fuel documents b s = (r, s') →
  ∃ batches,
    calls s' = calls s ++ (CallAdd <$> batches) ∧
    Forall (λ x, batch_wf x ∧ 100 ≤ batch_size x) batches ∧
    (∀ b', r = Ok b' → batch_wf b').
Proof.
  induction documents as [|doc documents IH]; intros b s s' r Hb; simpl.
  { intros [= <- <-]. exists []. rewrite app_nil_r.
    split_and!; [done|constructor|by intros ? [= <-]]. }
  unfold bind at 1.
  destruct (on_embedder (get_embeddings_for_chunks fuel (doc_content doc)) s)
    as [[embeddings| |] s1] eqn:H1;
    apply on_embedder_inv in H1 as (_ & _ & _ & _ & Hc1 & _);
    [|intros [= <- <-]; exists []; rewrite app_nil_r;
      split_and!; [done|constructor|done]..].
  unfold bind at 1.
  destruct (on_embedder (chunk_text fuel (doc_content doc)) s1)
    as [[chunks| |] s2] eqn:H2;
    apply on_embedder_inv in H2 as (_ & _ & _ & _ & Hc2 & _);
    [|intros [= <- <-]; exists []; rewrite app_nil_r;
      split_and!; [congruence|constructor|done]..].
  set (b1 := append_records doc 0 (zip chunks embeddings) b).
  assert (batch_wf b1) as Hb1 by by apply append_records_wf.
  destruct (Z.leb_spec 100 (Z.of_nat (length (all_ids b1)))) as [Hfull|Hless].
  - unfold bind at 1.
    destruct (add b1 s2) as [[[]| |] s3] eqn:H3;
      apply add_inv in H3 as (Hc3 & _ & _).
    + intros (batches & Hc & Hbs & Hr)%IH;
        [|by split_and!; [done..|constructor]].
      exists (b1 :: batches). split_and!; [|constructor; [by split|done]|done].
      rewrite Hc, Hc3, Hc2, Hc1, <-app_assoc. done.
    + intros [= <- <-]. exists [b1].
      split_and!; [simpl; congruence| |done].
      constructor; [by split|constructor].
    + intros [= <- <-]. exists [b1].
      split_and!; [simpl; congruence| |done].
      constructor; [by split|constructor].
  - intros (batches & Hc & Hbs & Hr)%IH; [|done].
    exists batches. split_and!; [congruence|done..].
Qed.

(** X11: whatever its outcome, [add_documents] makes only [add] calls, and
    each carries four lists of one length, at least one record long, in
    which the id at each place is the path and the chunk index of the
    metadata at that place, joined by an underscore. *)
Theorem add_documents_sends_well_formed fuel documents (s : VectorSearch) :
  ∃ batches,
    calls (add_documents fuel documents s).2 = calls s ++ (CallAdd <$> batches) ∧
    Forall (λ b, batch_wf b ∧ 0 < batch_size b) batches.
Proof.
  unfold add_documents, bind.
  destruct (add_documents_loop fuel documents empty_batch s) as [r1 s1] eqn:Hloop.
  apply add_documents_loop_sends in Hloop as (batches & Hc & Hbs & Hr);
    [|by split_and!; [done..|constructor]].
  assert (Forall (λ b, batch_wf b ∧ 0 < batch_size b) batches) as Hbs'.
  { eapply Forall_impl; [exact Hbs|]. simpl. intros b [? ?]. split; [done|lia]. }
  destruct r1 as [b'| |]; [|by exists batches..].
  destruct (all_ids b') as [|id ids] eqn:Hids; [by exists batches|].
  destruct (add b' s1) as [r2 s2] eqn:Hadd.
  apply add_inv in Hadd as (Hc' & _ & _).
  exists (batches ++ [b']). simpl. split.
  - rewrite Hc', Hc, fmap_app, <-app_assoc. done.
  - apply Forall_app. split; [done|]. constructor; [|done].
    split; [by apply Hr|]. unfold batch_size. rewrite Hids. simpl. lia.
Qed.

(** With a positive overlap the loop stops at the first document that has
    content: the chunking of its content never returns. *)
Lemma add_documents_loop_pending fuel documents : ∀ b (s : VectorSearch),
  0 < chunk_overlap (config (embedder s)) → batch_size b < 100 →
  Exists (λ d, doc_content d ≠ "") documents →
  add_documents_loop fuel documents b s = (Pending, s).
Proof.
  induction documents as [|doc documents IH]; intros b s Hov Hb Hex.
  { by apply Exists_nil in Hex. }
  destruct (decide (doc_content doc = "")) as [Hempty|Hne].
  - rewrite add_documents_loop_skip by done. apply IH; [done..|].
    apply Exists_cons in Hex as [?|?]; done.
  - simpl. unfold bind at 1.
    rewrite (on_embedder_same _ s Pending); [done|].
    unfold get_embeddings_for_chunks, bind, chunk_text.
    by rewrite chunk_text_never_returns_with_overlap.
Qed.

Lemma delete_existing_chunks_embedder path (s : VectorSearch) :
  embedder (delete_existing_chunks path s).2 = embedder s.
Proof.
  rewrite delete_existing_chunks_cases. simpl.
  destruct (collection_get (store s) path) as [[|id ids]| |]; try done.
  by destruct (collection_delete (store s) (id :: ids)).
Qed.

(** X12: with a positive overlap, as in the default configuration,
    [add_documents] never returns on a list that holds a document with
    content, and makes no call to the collection; [update_document] with a
    content that is not empty never returns either, after it has asked the
    collection for the records of the path and for their deletion. *)
Theorem add_documents_never_returns_with_overlap fuel (s : VectorSearch) :
  0 < chunk_overlap (config (embedder s)) →
  (∀ documents, Exists (λ d, doc_content d ≠ "") documents →
     add_documents fuel documents s = (Pending, s)) ∧
  (∀ path content, content ≠ "" →
     update_document fuel path content s
     = (Pending, (delete_existing_chunks path s).2)).
Proof.
  intros Hov.
  assert (∀ (s : VectorSearch) documents,
            0 < chunk_overlap (config (embedder s)) →
            Exists (λ d, doc_content d ≠ "") documents →
            add_documents fuel documents s = (Pending, s)) as Hadd.
  { intros s0 documents Hov0 Hex. unfold add_documents, bind.
    by rewrite add_documents_loop_pending. }
  split; [intros documents; by apply Hadd|].
  intros path content Hne. unfold update_document, bind.
  pose proof (delete_existing_chunks_embedder path s) as Hemb.
  destruct (delete_existing_chunks path s) as [[[]| |] s1] eqn:Hdel; simpl in *.
  - apply Hadd; [by rewrite Hemb|]. by constructor.
  - rewrite delete_existing_chunks_cases in Hdel. simpl in Hdel.
    destruct (collection_get (store s) path) as [[|id ids]| |]; try done.
    by destruct (collection_delete (store s) (id :: ids)).
  - done.
Qed.

(** X13: [update_document] with an empty content only deletes: it does what
    the deletion step does and adds nothing. *)
Theorem update_document_empty_content fuel path (s : VectorSearch) :
  update_document fuel path "" s = delete_existing_chunks path s.
Proof.
  unfold update_document, bind.
  destruct (delete_existing_chunks path s) as [[[]| |] s1]; [|done..].
  unfold add_documents, bind.
  rewrite add_documents_loop_skip by done. done.
Qed.

End AddDocumentsEdges.


Lemma add_documents_never_returns_with_overlap_witness :
  let s := test_indexer test_config false in
  @update_document test_library test_chroma 50 "a.cs" "text" s
  = (Pending, (@delete_existing_chunks test_library test_chroma "a.cs" s).2).
Proof.
  intros s.
  apply (@add_documents_never_returns_with_overlap test_library test_chroma 50 s).
  - simpl. lia.
  - done.
Defined.

(** ** Scanning a directory *)

Lemma node_ind2 (P : node → Prop) :
  (∀ f, P (File f)) →
  (∀ d children, Forall P children → P (Dir d children)) →
  ∀ n, P n.
Proof.
  intros Hfile Hdir. fix IH 1. intros [f|d children]; [apply Hfile|].
  apply Hdir. induction children as [|c children IHc]; constructor.
  - apply IH.
  - apply IHc.
Qed.

Lemma should_ignore_file_false cfg parts :
  should_ignore_file cfg parts = false ↔
  Forall (λ part, part ∉ ignored_folders cfg) parts.
Proof.
  unfold should_ignore_file. rewrite <-not_true_iff_false, existsb_exists.
  rewrite Forall_forall. split.
  - intros Hno part Hpart Hin. apply Hno. exists part.
    split; [by apply list_elem_of_In|]. by apply bool_decide_eq_true.
  - intros Hall (folder & Hin%list_elem_of_In & Hpart%bool_decide_eq_true).
    by apply (Hall folder).
Qed.

Lemma elem_of_file_names children f : f ∈ file_names children ↔ File f ∈ children.
Proof.
  unfold file_names. rewrite list_elem_of_In, in_flat_map. split.
  - intros ([f'|d sub] & Hc%list_elem_of_In & Hf); simpl in Hf; [|done].
    destruct Hf as [->|[]]. done.
  - intros Hin. exists (File f). split; [by apply list_elem_of_In|by left].
Qed.

Section ScanFacts.
Context `{lib : Library}.

Lemma elem_of_found_in cfg root files p :
  p ∈ found_in cfg root files ↔
  ∃ f, p = root ++ [f] ∧ f ∈ files ∧ is_supported_file cfg f = true ∧
       Forall (λ part, part ∉ ignored_folders cfg) p.
Proof.
  unfold found_in. split.
  - destruct (should_ignore_file cfg root) eqn:Hroot; [by intros ?%elem_of_nil|].
    rewrite list_elem_of_In, in_flat_map.
    intros (f & Hf%list_elem_of_In & Hp).
    destruct (is_supported_file cfg f) eqn:Hsup; [|done].
    destruct (should_ignore_file cfg (root ++ [f])) eqn:Hfile; [done|].
    destruct Hp as [<-|[]]. exists f. split_and!; [done..|].
    by apply should_ignore_file_false.
  - intros (f & -> & Hf & Hsup & Hall).
    pose proof Hall as Hfile%should_ignore_file_false.
    apply Forall_app in Hall as [Hroot%should_ignore_file_false _].
    rewrite Hroot, list_elem_of_In, in_flat_map.
    exists f. split; [by apply list_elem_of_In|].
    rewrite Hsup, Hfile. by left.
Qed.

(** What [walk] finds below a directory. *)
Lemma elem_of_walk cfg n : ∀ root p,
  p ∈ walk cfg root n ↔
  ∃ rel f, p = root ++ rel ++ [f] ∧ file_at n rel f ∧
           is_supported_file cfg f = true ∧
           Forall (λ part, part ∉ ignored_folders cfg) p.
Proof.
  induction n as [f0|d children IH] using node_ind2; intros root p.
  { simpl. split; [by intros ?%elem_of_nil|].
    intros (rel & f & _ & Hat & _). inversion Hat. }
  simpl. rewrite elem_of_app, elem_of_found_in. split.
  - intros [(f & -> & Hf%elem_of_file_names & Hsup & Hall)|Hsub].
    + exists [], f. split_and!; [done|by constructor|done..].
    + apply list_elem_of_In, in_flat_map in Hsub as (child & Hchild%list_elem_of_In & Hp).
      destruct child as [f'|d' sub]; [done|].
      destruct (bool_decide (d' ∈ ignored_folders cfg)); [done|].
      rewrite Forall_forall in IH.
      apply list_elem_of_In, (IH _ Hchild) in Hp as (rel & f & -> & Hat & Hsup & Hall).
      exists (d' :: rel), f. split_and!; [|by econstructor|done|].
      * by rewrite <-app_assoc.
      * done.
  - intros (rel & f & -> & Hat & Hsup & Hall).
    inversion Hat as [? ? ? Hin|? ? d' sub rel' ? Hin Hat']; subst.
    + left. exists f. by rewrite elem_of_file_names.
    + right. apply list_elem_of_In, in_flat_map.
      exists (Dir d' sub). split; [by apply list_elem_of_In|].
      assert (d' ∉ ignored_folders cfg) as Hd'.
      { rewrite Forall_forall in Hall. apply Hall. set_solver. }
      rewrite bool_decide_eq_false_2 by done.
      rewrite Forall_forall in IH.
      apply list_elem_of_In, (IH _ Hin).
      exists rel', f. split_and!; [|done..|].
      * by rewrite <-app_assoc.
      * done.
Qed.

(** X14: [scan_directory] finds exactly the files below the target
    directory that have a supported extension and no ignored folder name
    among the parts of their path, the parts of the target directory's own
    path and the file name included. *)
Theorem scan_directory_spec cfg fs root p :
  target_directory cfg = Some root →
  p ∈ scan_directory cfg fs ↔
  ∃ rel f, p = root ++ rel ++ [f] ∧ file_at fs rel f ∧
           is_supported_file cfg f = true ∧
           Forall (λ part, part ∉ ignored_folders cfg) p.
Proof. intros Htarget. unfold scan_directory. rewrite Htarget. apply elem_of_walk. Qed.

(** X15: [scan_directory] finds nothing when no target directory is set,
    and nothing either when a part of the target directory's own path is an
    ignored folder name, whatever the directory holds. *)
Theorem scan_directory_ignored_target cfg fs :
  (target_directory cfg = None → scan_directory cfg fs = []) ∧
  (∀ root part, target_directory cfg = Some root →
     part ∈ root → part ∈ ignored_folders cfg → scan_directory cfg fs = []).
Proof.
  unfold scan_directory. split; [by intros ->|].
  intros root part -> Hpart Hignored.
  destruct (walk cfg root fs) as [|p found] eqn:Hwalk; [done|].
  assert (p ∈ walk cfg root fs) as Hp by (rewrite Hwalk; by left).
  apply elem_of_walk in Hp as (rel & f & -> & _ & _ & Hall).
  rewrite Forall_forall in Hall. destruct (Hall part); [set_solver|done].
Qed.

Lemma dict_get_set {V} (d : list (string * V)) k v k' :
  dict_get k' (dict_set k v d) = if decide (k = k') then Some v else dict_get k' d.
Proof.
  induction d as [|[k0 v0] d IH]; simpl.
  - destruct (decide (k = k')); done.
  - destruct (decide (k0 = k)) as [->|Hne]; simpl.
    + destruct (decide (k = k')); done.
    + destruct (decide (k0 = k')) as [->|]; [|done].
      by rewrite decide_False by done.
Qed.

Lemma sum_values_dict_set (d : list (string * Z)) k v :
  sum_values (dict_set k v d) = sum_values d - default 0 (dict_get k d) + v.
Proof.
  induction d as [|[k0 v0] d IH]; [unfold sum_values; simpl; lia|].
  simpl. destruct (decide (k0 = k)); [unfold sum_values; simpl; lia|].
  change (sum_values ((k0, v0) :: dict_set k v d))
    with (v0 + sum_values (dict_set k v d)).
  change (sum_values ((k0, v0) :: d)) with (v0 + sum_values d).
  rewrite IH. lia.
Qed.

Lemma dict_set_positive (d : list (string * Z)) k v :
  0 < v → Forall (λ kv, 0 < kv.2) d → Forall (λ kv, 0 < kv.2) (dict_set k v d).
Proof.
  intros Hv. induction 1 as [|[k0 v0] d Hk0 Hd IH]; simpl.
  - by repeat constructor.
  - destruct (decide (k0 = k)); constructor; done.
Qed.

Lemma foldl_count_file path_string found : ∀ d,
  Forall (λ kv, 0 < kv.2) d →
  let d' := foldl (count_file path_string) d found in
  sum_values d' = sum_values d + Z.of_nat (length found) ∧
  Forall (λ kv, 0 < kv.2) d' ∧
  ∀ ext, default 0 (dict_get ext d')
         = default 0 (dict_get ext d) +
           Z.of_nat (length (filter (λ p, splitext_lower (path_string p) = ext) found)).
Proof.
  induction found as [|p found IH]; intros d Hd; simpl.
  { split_and!; [lia|done|intros; lia]. }
  assert (0 ≤ default 0 (dict_get (splitext_lower (path_string p)) d)) as Hnonneg.
  { destruct (dict_get _ d) as [v|] eqn:Hget; simpl; [|lia].
    apply dict_get_Some in Hget. rewrite Forall_forall in Hd.
    specialize (Hd _ Hget). simpl in Hd. lia. }
  destruct (IH (count_file path_string d p)) as (Hsum & Hpos & Hcount).
  { apply dict_set_positive; [lia|done]. }
  split_and!; [|done|].
  - rewrite Hsum. unfold count_file. rewrite sum_values_dict_set. lia.
  - intros ext. rewrite Hcount. unfold count_file at 1. rewrite dict_get_set.
    destruct (decide (splitext_lower (path_string p) = ext)) as [Heq|Hne].
    + rewrite filter_cons_True by done. simpl. rewrite Heq. lia.
    + rewrite filter_cons_False by done. lia.
Qed.

(** X16: in the statistics of [get_file_stats], the count of an extension
    is the number of files found whose path has that extension, every
    extension listed has a positive count, and the counts add up to the
    total number of files. *)
Theorem get_file_stats_counts path_string cfg fs :
  let found := scan_directory cfg fs in
  let stats := get_file_stats path_string cfg fs in
  stats.1 = Z.of_nat (length found) ∧
  sum_values stats.2 = stats.1 ∧
  Forall (λ kv, 0 < kv.2) stats.2 ∧
  ∀ ext, default 0 (dict_get ext stats.2)
         = Z.of_nat (length (filter (λ p, splitext_lower (path_string p) = ext) found)).
Proof.
  intros found stats. unfold stats, get_file_stats. simpl. fold found.
  destruct (foldl_count_file path_string found []) as (Hsum & Hpos & Hcount);
    [constructor|].
  split_and!; [done|by rewrite Hsum|done|].
  intros ext. by rewrite Hcount.
Qed.

End ScanFacts.

Lemma scan_directory_spec_witness :
  let cfg := ScanConfig_init None None (Some ["/"; "src"]) in
  let fs := Dir "src" [File "a.cs"; Dir "bin" [File "b.cs"]; Dir "lib" [File "c.CS"]] in
  ["/"; "src"; "a.cs"] ∈ @scan_directory test_library cfg fs.
Proof.
  intros cfg fs.
  apply (@scan_directory_spec test_library cfg fs ["/"; "src"]); [reflexivity|].
  exists [], "a.cs". split_and!; [reflexivity|by repeat constructor|reflexivity|].
  do 3 (constructor; [by apply (bool_decide_eq_false_1 (_ ∈ _))|]). constructor.
Defined.

Lemma scan_directory_ignored_target_witness :
  let cfg := ScanConfig_init None None (Some ["/"; "home"; "bin"; "project"]) in
  @scan_directory test_library cfg (Dir "project" [File "a.cs"]) = [].
Proof.
  intros cfg.
  destruct (@scan_directory_ignored_target test_library cfg (Dir "project" [File "a.cs"]))
    as [_ Hignored].
  apply (Hignored ["/"; "home"; "bin"; "project"] "bin"); [reflexivity|..].
  - by apply (bool_decide_eq_true_1 (_ ∈ _)).
  - by apply (bool_decide_eq_true_1 (_ ∈ _)).
Defined.

(** ** The batches of [add_documents] *)

Section AddDocumentsBatches.
Context `{lib : Library} `{chroma : !Chroma}.






End AddDocumentsBatches.

